(** * Subagent message grouping and the memo comparator

    A shallow embedding of [src/lib/subagentGrouping.ts] (the classifier
    predicates and [groupMessages]) and of the comparators [isMessageEqual]
    and [isMessageGroupEqual] of
    [src/components/message/StreamMessageV2.tsx], followed by the
    properties stated about them.

    Conventions of the embedding:
    - a JavaScript object field that may be absent is an [option]; absence
      is [None] ([undefined]);
    - array indices are [nat];
    - a [Map<K, V>] is a [gmap K V], a [Set<K>] is a [gset K]; the one map
      that the source iterates, [taskToolUseMap], is iterated only to fill
      [subagentGroups], which is queried by key, so the iteration order is
      unobservable;
    - [Array.prototype.forEach] with mutation of enclosing variables is a
      left fold that threads the mutated variables as explicit state;
    - [Array.prototype.push] appends at the end of a list;
    - message objects are compared by reference in the comparators, so
      every message carries the identity of the object that holds it. *)

From Stdlib Require Import ZArith Ascii String.
From stdpp Require Import base option list strings gmap fin_maps fin_sets sorting.

Open Scope string_scope.
Open Scope list_scope.
Open Scope nat_scope.

(** ** JavaScript string helpers *)

Module Js.

(** Strings are modelled as sequences of 8-bit characters; the two string
    built-ins the source calls are modelled on the ASCII range. *)

Definition lower_ascii (c : ascii) : ascii :=
  let n := nat_of_ascii c in
  if (65 <=? n)%nat && (n <=? 90)%nat then ascii_of_nat (n + 32) else c.

Fixpoint toLowerCase (s : string) : string :=
  match s with
  | EmptyString => EmptyString
  | String c s' => String (lower_ascii c) (toLowerCase s')
  end.

(** TAB, LF, VT, FF, CR and SPACE. *)
Definition is_space (c : ascii) : bool :=
  let n := nat_of_ascii c in
  ((9 <=? n)%nat && (n <=? 13)%nat) || (n =? 32)%nat.

Fixpoint trimStart (s : string) : string :=
  match s with
  | EmptyString => EmptyString
  | String c s' => if is_space c then trimStart s' else s
  end.

(** [trimEnd] keeps a character when it is not a space or when something
    survives to its right. *)
Fixpoint trimEnd (s : string) : string :=
  match s with
  | EmptyString => EmptyString
  | String c s' =>
      match trimEnd s' with
      | EmptyString => if is_space c then EmptyString else String c EmptyString
      | t => String c t
      end
  end.

Definition trim (s : string) : string := trimEnd (trimStart s).

(** Truthiness of an optional string: [undefined] and [""] are falsy. *)
Definition truthy (o : option string) : bool :=
  match o with
  | Some s => negb (String.eqb s "")
  | None => false
  end.

(** [a === b] on optional primitive values. *)
Definition strict_eq `{EqDecision A} (a b : option A) : bool :=
  bool_decide (a = b).

End Js.

(** ** Data model *)

(** A content item is an untyped object ([item: any] in the source); the
    record lists the fields the source reads. *)
Record ContentItem := mkItem {
  item_type : string;
  item_text : option string;
  item_id : option string;
  item_name : option string;
  item_tool_use_id : option string;
  (** [item.input?.subagent_type] *)
  item_subagent_type : option string;
}.

Inductive MessageContent :=
| ContentText (s : string)
| ContentArray (items : list ContentItem).

Record Usage := mkUsage {
  input_tokens : option Z;
  output_tokens : option Z;
}.

Record MessageBody := mkBody {
  content : option MessageContent;
  body_usage : option Usage;
}.

Record ClaudeStreamMessage := mkMsg {
  (** identity of the object: [a === b] on messages compares this *)
  ref : nat;
  type : string;
  id : option string;
  timestamp : option string;
  parent_tool_use_id : option string;
  isSidechain : option bool;
  usage : option Usage;
  message : option MessageBody;
}.

Global Instance ContentItem_eq_dec : EqDecision ContentItem.
Proof. solve_decision. Defined.
Global Instance MessageContent_eq_dec : EqDecision MessageContent.
Proof. solve_decision. Defined.
Global Instance Usage_eq_dec : EqDecision Usage.
Proof. solve_decision. Defined.
Global Instance MessageBody_eq_dec : EqDecision MessageBody.
Proof. solve_decision. Defined.
Global Instance ClaudeStreamMessage_eq_dec : EqDecision ClaudeStreamMessage.
Proof. solve_decision. Defined.

Record SubagentGroup := mkGroup {
  group_id : string;
  taskMessage : ClaudeStreamMessage;
  taskToolUseId : string;
  subagentMessages : list ClaudeStreamMessage;
  startIndex : nat;
  endIndex : nat;
  subagentType : option string;
}.

Inductive MessageGroup :=
| Normal (msg : ClaudeStreamMessage) (index : nat)
| Subagent (group : SubagentGroup)
| Aggregated (messages : list ClaudeStreamMessage) (index : nat).

(** [message.message?.content] *)
Definition content_of (m : ClaudeStreamMessage) : option MessageContent :=
  message m ≫= content.

(** [Array.isArray(content)], returning the items when it holds. *)
Definition as_array (c : option MessageContent) : option (list ContentItem) :=
  match c with
  | Some (ContentArray items) => Some items
  | _ => None
  end.

(** ** Event classifier *)

(** [item.type === 'tool_use' && item.name?.toLowerCase() === 'task'] *)
Definition is_task_item (item : ContentItem) : bool :=
  String.eqb (item_type item) "tool_use" &&
  bool_decide (Js.toLowerCase <$> item_name item = Some "task").

Definition hasTaskToolCall (m : ClaudeStreamMessage) : bool :=
  if negb (String.eqb (type m) "assistant") then false
  else match as_array (content_of m) with
       | None => false
       | Some items => existsb is_task_item items
       end.

(** [.filter(task).map(item => item.id).filter(Boolean)] *)
Definition task_item_ids (items : list ContentItem) : list string :=
  omap (fun item => if Js.truthy (item_id item) then item_id item else None)
       (filter (fun item => is_task_item item = true) items).

Definition extractTaskToolUseIds (m : ClaudeStreamMessage) : list string :=
  if negb (hasTaskToolCall m) then []
  else match as_array (content_of m) with
       | None => []
       | Some items => task_item_ids items
       end.

(** The detail record [{ subagentType?: string }] is represented by its one
    optional field. *)
Definition extractTaskToolDetails (m : ClaudeStreamMessage)
  : gmap string (option string) :=
  if negb (hasTaskToolCall m) then ∅
  else match as_array (content_of m) with
       | None => ∅
       | Some items =>
           foldl (fun details item =>
                    match item_id item with
                    | Some i =>
                        if Js.truthy (Some i)
                        then <[i := item_subagent_type item]> details
                        else details
                    | None => details
                    end)
                 ∅ (filter (fun item => is_task_item item = true) items)
       end.

Definition isSubagentMessage (m : ClaudeStreamMessage) : bool :=
  let hasParent := Js.truthy (parent_tool_use_id m) in
  let isSide := bool_decide (isSidechain m = Some true) in
  hasParent || isSide.

(** [parent_tool_use_id || null]: a falsy id reads as [null]. *)
Definition getParentToolUseId (m : ClaudeStreamMessage) : option string :=
  if Js.truthy (parent_tool_use_id m) then parent_tool_use_id m else None.

(** The callback of [content.every] in [isTechnicalMessage]. *)
Definition technical_item (item : ContentItem) : bool :=
  if String.eqb (item_type item) "tool_use" then true
  else if String.eqb (item_type item) "tool_result" then true
  else if String.eqb (item_type item) "thinking" then true
  else if String.eqb (item_type item) "text" then
    match item_text item with
    | None => true
    | Some t => negb (Js.truthy (Some t)) || (String.length (Js.trim t) =? 0)%nat
    end
  else false.

Definition isTechnicalMessage (m : ClaudeStreamMessage) : bool :=
  if String.eqb (type m) "thinking" then true
  else if negb (String.eqb (type m) "assistant") then false
  else match as_array (content_of m) with
       | None => false
       | Some items => forallb technical_item items
       end.

(** ** groupMessages *)

(** [array.forEach((x, index) => ...)] whose callback updates variables of
    the enclosing function: the variables are the state [s]. *)
Fixpoint forEach_from {A St : Type} (f : St → A → nat → St)
    (i : nat) (l : list A) (s : St) : St :=
  match l with
  | [] => s
  | x :: l' => forEach_from f (S i) l' (f s x i)
  end.

Definition forEach {A St : Type} (f : St → A → nat → St) (l : list A) (s : St)
  : St :=
  forEach_from f 0 l s.

(** *** First pass: the task lookups *)

Record TaskInfo := mkInfo {
  info_message : ClaudeStreamMessage;
  info_index : nat;
}.

Record Resolver := mkResolver {
  taskToolUseMap : gmap string TaskInfo;
  indexToTaskIds : gmap nat (list string);
  taskSubagentTypes : gmap string string;
}.

Definition empty_resolver : Resolver := mkResolver ∅ ∅ ∅.

(** Body of [taskIds.forEach(taskId => ...)]. *)
Definition record_task (msg : ClaudeStreamMessage) (index : nat)
    (details : gmap string (option string)) (r : Resolver) (taskId : string)
  : Resolver :=
  {| taskToolUseMap := <[taskId := mkInfo msg index]> (taskToolUseMap r);
     indexToTaskIds := indexToTaskIds r;
     taskSubagentTypes :=
       match details !! taskId with
       | Some (Some t) =>
           if Js.truthy (Some t) then <[taskId := t]> (taskSubagentTypes r)
           else taskSubagentTypes r
       | _ => taskSubagentTypes r
       end |}.

Definition resolve_step (r : Resolver) (msg : ClaudeStreamMessage) (index : nat)
  : Resolver :=
  let taskIds := extractTaskToolUseIds msg in
  if (0 <? length taskIds)%nat then
    let r1 := {| taskToolUseMap := taskToolUseMap r;
                 indexToTaskIds := <[index := taskIds]> (indexToTaskIds r);
                 taskSubagentTypes := taskSubagentTypes r |} in
    foldl (record_task msg index (extractTaskToolDetails msg)) r1 taskIds
  else r.

Definition resolve (messages : list ClaudeStreamMessage) : Resolver :=
  forEach resolve_step messages empty_resolver.

(** *** Second pass: the subagent groups *)

(** The loop [for (i = ...; i < messages.length; i++)] over the messages
    [rest] that remain from position [i] on, with the two variables it
    updates. *)
Fixpoint collect (taskId : string) (i : nat) (rest : list ClaudeStreamMessage)
    (subs : list ClaudeStreamMessage) (maxIndex : nat)
  : list ClaudeStreamMessage * nat :=
  match rest with
  | [] => (subs, maxIndex)
  | msg :: rest' =>
      if bool_decide (getParentToolUseId msg = Some taskId)
      then collect taskId (S i) rest' (subs ++ [msg]) (Nat.max maxIndex i)
      else collect taskId (S i) rest' subs maxIndex
  end.

(** Body of [taskToolUseMap.forEach((taskInfo, taskId) => ...)]: the group
    stored under [taskId], if any. *)
Definition build_group (messages : list ClaudeStreamMessage)
    (types : gmap string string) (taskId : string) (taskInfo : TaskInfo)
  : option SubagentGroup :=
  let '(subs, maxIndex) :=
    collect taskId (info_index taskInfo + 1)
            (drop (info_index taskInfo + 1) messages) [] (info_index taskInfo) in
  if (0 <? length subs)%nat then
    Some {| group_id := taskId;
            taskMessage := info_message taskInfo;
            taskToolUseId := taskId;
            subagentMessages := subs;
            startIndex := info_index taskInfo;
            endIndex := maxIndex;
            subagentType := types !! taskId |}
  else None.

Definition subagentGroupsOf (messages : list ClaudeStreamMessage) (r : Resolver)
  : gmap string SubagentGroup :=
  map_imap (build_group messages (taskSubagentTypes r)) (taskToolUseMap r).

(** *** Marking the consumed indices *)

Definition mark_step (groups : gmap string SubagentGroup)
    (processed : gset nat) (msg : ClaudeStreamMessage) (index : nat) : gset nat :=
  match getParentToolUseId msg with
  | Some parentId =>
      if bool_decide (is_Some (groups !! parentId))
      then {[index]} ∪ processed
      else processed
  | None => processed
  end.

Definition processedIndicesOf (messages : list ClaudeStreamMessage)
    (groups : gmap string SubagentGroup) : gset nat :=
  forEach (mark_step groups) messages ∅.

(** *** Third pass: the intermediate sequence *)

(** The third pass pushes only ['normal'] and ['subagent'] entries, and the
    fourth pass reads [group.message] of every entry that is not
    ['subagent']; the intermediate sequence therefore has these two
    variants. *)
Inductive IntermediateGroup :=
| INormal (msg : ClaudeStreamMessage) (index : nat)
| ISubagent (group : SubagentGroup).

Record Builder := mkBuilder {
  intermediateGroups : list IntermediateGroup;
  addedTaskGroups : gset string;
}.

Definition push_normal (b : Builder) (msg : ClaudeStreamMessage) (index : nat)
  : Builder :=
  {| intermediateGroups := intermediateGroups b ++ [INormal msg index];
     addedTaskGroups := addedTaskGroups b |}.

(** Body of [taskIds.forEach(taskId => ...)] in the third pass. *)
Definition emit_group (groups : gmap string SubagentGroup)
    (b : Builder) (taskId : string) : Builder :=
  match groups !! taskId with
  | Some g =>
      if bool_decide (taskId ∈ addedTaskGroups b) then b
      else {| intermediateGroups := intermediateGroups b ++ [ISubagent g];
              addedTaskGroups := {[taskId]} ∪ addedTaskGroups b |}
  | None => b
  end.

Definition build_step (groups : gmap string SubagentGroup)
    (processed : gset nat) (idx : gmap nat (list string))
    (b : Builder) (msg : ClaudeStreamMessage) (index : nat) : Builder :=
  if bool_decide (index ∈ processed) then b
  else match idx !! index with
       | Some taskIds =>
           if (0 <? length taskIds)%nat then
             let b' := foldl (emit_group groups) b taskIds in
             let hasAnySubagentGroup :=
               existsb (fun i => bool_decide (is_Some (groups !! i))) taskIds in
             if negb hasAnySubagentGroup then push_normal b' msg index else b'
           else push_normal b msg index
       | None => push_normal b msg index
       end.

Definition intermediateOf (messages : list ClaudeStreamMessage)
  : list IntermediateGroup :=
  let r := resolve messages in
  let groups := subagentGroupsOf messages r in
  let processed := processedIndicesOf messages groups in
  intermediateGroups
    (forEach (build_step groups processed (indexToTaskIds r)) messages
             (mkBuilder [] ∅)).

(** *** Fourth pass: aggregation of technical runs *)

Record Aggregation := mkAgg {
  agg_messages : list ClaudeStreamMessage;
  agg_startIndex : nat;
}.

Record AggState := mkAggState {
  finalGroups : list MessageGroup;
  currentAggregation : option Aggregation;
}.

(** [if (currentAggregation) finalGroups.push({type: 'aggregated', ...})] *)
Definition flush (st : AggState) : list MessageGroup :=
  match currentAggregation st with
  | Some a => finalGroups st ++ [Aggregated (agg_messages a) (agg_startIndex a)]
  | None => finalGroups st
  end.

Definition aggregate_step (st : AggState) (g : IntermediateGroup) : AggState :=
  match g with
  | ISubagent group =>
      {| finalGroups := flush st ++ [Subagent group];
         currentAggregation := None |}
  | INormal msg index =>
      if isTechnicalMessage msg then
        let cur := match currentAggregation st with
                   | Some a => a
                   | None => mkAgg [] index
                   end in
        {| finalGroups := finalGroups st;
           currentAggregation :=
             Some (mkAgg (agg_messages cur ++ [msg]) (agg_startIndex cur)) |}
      else
        {| finalGroups := flush st ++ [Normal msg index];
           currentAggregation := None |}
  end.

Definition aggregate (groups : list IntermediateGroup) : list MessageGroup :=
  flush (foldl aggregate_step (mkAggState [] None) groups).

Definition groupMessages (messages : list ClaudeStreamMessage) : list MessageGroup :=
  aggregate (intermediateOf messages).

(** ** Equality oracle *)

(** [a === b] on two message references, either of which may be
    [undefined]. *)
Definition same_message (a b : option ClaudeStreamMessage) : bool :=
  match a, b with
  | None, None => true
  | Some x, Some y => Nat.eqb (ref x) (ref y)
  | _, _ => false
  end.

(** One iteration of the loop over the two content arrays; [true] means the
    loop goes on. *)
Definition item_equal (p n : ContentItem) : bool :=
  if negb (String.eqb (item_type p) (item_type n)) then false
  else if String.eqb (item_type p) "text"
          && negb (Js.strict_eq (item_text p) (item_text n)) then false
  else if String.eqb (item_type p) "tool_use"
          && (negb (Js.strict_eq (item_id p) (item_id n))
              || negb (Js.strict_eq (item_name p) (item_name n))) then false
  else if String.eqb (item_type p) "tool_result"
          && negb (Js.strict_eq (item_tool_use_id p) (item_tool_use_id n))
       then false
  else true.

Fixpoint items_equal (ps ns : list ContentItem) : bool :=
  match ps, ns with
  | p :: ps', n :: ns' => if item_equal p n then items_equal ps' ns' else false
  | _, _ => true
  end.

(** [x.usage || x.message?.usage] *)
Definition usage_of (m : ClaudeStreamMessage) : option Usage :=
  match usage m with
  | Some u => Some u
  | None => message m ≫= body_usage
  end.

Definition isMessageEqual (prev next : option ClaudeStreamMessage) : bool :=
  if same_message prev next then true
  else match prev, next with
  | Some p, Some n =>
    if negb (String.eqb (type p) (type n)) then false
    else if Js.truthy (id p) && Js.truthy (id n)
            && negb (Js.strict_eq (id p) (id n)) then false
    else if negb (Js.strict_eq (timestamp p) (timestamp n)) then false
    else if
      match as_array (content_of p), as_array (content_of n) with
      | Some ps, Some ns =>
          negb (length ps =? length ns)%nat || negb (items_equal ps ns)
      | _, _ => negb (bool_decide (content_of p = content_of n))
      end then false
    else if negb (Js.strict_eq (usage_of p ≫= input_tokens)
                               (usage_of n ≫= input_tokens))
            || negb (Js.strict_eq (usage_of p ≫= output_tokens)
                                  (usage_of n ≫= output_tokens)) then false
    else true
  | _, _ => false
  end.

(** The loop over the two [subagentMessages] arrays, which have the same
    length when it runs. *)
Fixpoint subagent_messages_equal (ps ns : list ClaudeStreamMessage) : bool :=
  match ps, ns with
  | p :: ps', n :: ns' =>
      if negb (same_message (Some p) (Some n))
         && negb (isMessageEqual (Some p) (Some n)) then false
      else subagent_messages_equal ps' ns'
  | _, _ => true
  end.

(** The group objects are created afresh by every run of [groupMessages];
    [same] is the outcome of [prev === next] when both groups are defined.
    The [group] field of a ['subagent'] entry is present by its type, so
    the guard [!prevGroup || !nextGroup] never fires. *)
Definition isMessageGroupEqual (same : bool) (prev next : option MessageGroup)
  : bool :=
  match prev, next with
  | None, None => true
  | Some p, Some n =>
      if same then true
      else match p, n with
      | Normal pm _, Normal nm _ => isMessageEqual (Some pm) (Some nm)
      | Subagent pg, Subagent ng =>
          if negb (isMessageEqual (Some (taskMessage pg)) (Some (taskMessage ng)))
          then false
          else if negb (length (subagentMessages pg)
                        =? length (subagentMessages ng))%nat
          then false
          else subagent_messages_equal (subagentMessages pg) (subagentMessages ng)
      | Aggregated _ _, Aggregated _ _ => true
      | _, _ => false
      end
  | _, _ => false
  end.


(** ** The remaining exports of the grouping module *)

(** [shouldHideMessage]: the message is a subagent message whose parent id
    is the task id of a subagent group of [groups]. *)
Definition shouldHideMessage (m : ClaudeStreamMessage)
    (groups : list MessageGroup) : bool :=
  if isSubagentMessage m then
    match getParentToolUseId m with
    | Some parentId =>
        existsb (λ g, match g with
                      | Subagent grp => String.eqb (taskToolUseId grp) parentId
                      | _ => false
                      end) groups
    | None => false
    end
  else false.

(** [getSubagentMessageRole]; the result is the raw [message.type] unless
    the first branch applies. *)
Definition getSubagentMessageRole (m : ClaudeStreamMessage) : string :=
  if String.eqb (type m) "user" && isSubagentMessage m then
    match as_array (content_of m) with
    | Some items =>
        if existsb (λ item, String.eqb (item_type item) "text") items
        then "assistant"
        else type m
    | None => type m
    end
  else type m.

(** ** The comparator of the memoised component *)

Record ClaudeSettings := mkSettings {
  showSystemInitialization : option bool;
}.

(** The props that the comparator reads, and [className], which it does
    not; the two callbacks ([onLinkDetected], [onRevert]) are functions,
    which the comparator never looks at, and are left out. *)
Record StreamMessageV2Props := mkProps {
  prop_message : option ClaudeStreamMessage;
  prop_messageGroup : option MessageGroup;
  prop_className : option string;
  prop_claudeSettings : option ClaudeSettings;
  prop_isStreaming : option bool;
  prop_promptIndex : option nat;
  prop_sessionId : option string;
  prop_projectId : option string;
  prop_projectPath : option string;
}.

(** [props.claudeSettings?.showSystemInitialization] *)
Definition showSystemInitialization_of (p : StreamMessageV2Props)
  : option bool :=
  prop_claudeSettings p ≫= showSystemInitialization.

(** The second argument of [React.memo]: [true] means that the component
    is not rendered again. As in [isMessageGroupEqual], [same_group] is the
    outcome of [===] on the two group objects when both are defined. *)
Definition arePropsEqual (same_group : bool)
    (prevProps nextProps : StreamMessageV2Props) : bool :=
  if bool_decide (is_Some (prop_messageGroup prevProps))
     || bool_decide (is_Some (prop_messageGroup nextProps))
  then
    isMessageGroupEqual same_group (prop_messageGroup prevProps)
                        (prop_messageGroup nextProps)
    && Js.strict_eq (prop_isStreaming prevProps) (prop_isStreaming nextProps)
    && Js.strict_eq (prop_promptIndex prevProps) (prop_promptIndex nextProps)
    && Js.strict_eq (prop_sessionId prevProps) (prop_sessionId nextProps)
    && Js.strict_eq (prop_projectId prevProps) (prop_projectId nextProps)
    && Js.strict_eq (showSystemInitialization_of prevProps)
                    (showSystemInitialization_of nextProps)
  else if negb (bool_decide (is_Some (prop_message prevProps)))
          || negb (bool_decide (is_Some (prop_message nextProps)))
  then same_message (prop_message prevProps) (prop_message nextProps)
  else
    isMessageEqual (prop_message prevProps) (prop_message nextProps)
    && Js.strict_eq (prop_isStreaming prevProps) (prop_isStreaming nextProps)
    && Js.strict_eq (prop_promptIndex prevProps) (prop_promptIndex nextProps)
    && Js.strict_eq (prop_sessionId prevProps) (prop_sessionId nextProps)
    && Js.strict_eq (prop_projectId prevProps) (prop_projectId nextProps)
    && Js.strict_eq (prop_projectPath prevProps) (prop_projectPath nextProps)
    && Js.strict_eq (showSystemInitialization_of prevProps)
                    (showSystemInitialization_of nextProps).
(** ** Vocabulary of the properties *)

(** *** The classifier and the comparator *)

(** An item that [isTechnicalMessage] lets through: a tool call, a tool
    result, a reasoning trace, or a text item with no text or only blanks. *)
Definition allowed_item (item : ContentItem) : Prop :=
  item_type item = "tool_use" ∨ item_type item = "tool_result"
  ∨ item_type item = "thinking"
  ∨ (item_type item = "text"
     ∧ (item_text item = None ∨ ∃ t, item_text item = Some t ∧ Js.trim t = "")).

(** The variant tag of a render group. *)
Definition group_tag (g : MessageGroup) : string :=
  match g with
  | Normal _ _ => "normal"
  | Subagent _ => "subagent"
  | Aggregated _ _ => "aggregated"
  end.

(** The fields that the comparator looks at in two items at the same
    position. *)
Definition items_agree (p n : ContentItem) : Prop :=
  item_type p = item_type n
  ∧ (item_type p = "text" → item_text p = item_text n)
  ∧ (item_type p = "tool_use" →
     item_id p = item_id n ∧ item_name p = item_name n)
  ∧ (item_type p = "tool_result" → item_tool_use_id p = item_tool_use_id n).

(** Two item sequences agree position by position; any other two contents
    agree when they are the same value. *)
Definition contents_agree (cp cn : option MessageContent) : Prop :=
  match cp, cn with
  | Some (ContentArray ps), Some (ContentArray ns) => Forall2 items_agree ps ns
  | _, _ => cp = cn
  end.

Definition messages_agree (p n : ClaudeStreamMessage) : Prop :=
  type p = type n
  ∧ (Js.truthy (id p) = true → Js.truthy (id n) = true → id p = id n)
  ∧ timestamp p = timestamp n
  ∧ contents_agree (content_of p) (content_of n)
  ∧ usage_of p ≫= input_tokens = usage_of n ≫= input_tokens
  ∧ usage_of p ≫= output_tokens = usage_of n ≫= output_tokens.

(** The same message held by another object. *)
Definition copy_of (r : nat) (m : ClaudeStreamMessage) : ClaudeStreamMessage :=
  mkMsg r (type m) (id m) (timestamp m) (parent_tool_use_id m)
        (isSidechain m) (usage m) (message m).

(** *** The passes of [groupMessages] *)

(** The maps and the set that [groupMessages] computes before its third
    pass, as functions of the input. *)
Definition subagentGroups (messages : list ClaudeStreamMessage)
  : gmap string SubagentGroup :=
  subagentGroupsOf messages (resolve messages).

Definition processedIndices (messages : list ClaudeStreamMessage) : gset nat :=
  processedIndicesOf messages (subagentGroups messages).

(** The task ids carried by the message at index [j], and the parent id it
    refers to; nothing beyond the end of the sequence. *)
Definition task_ids_at (messages : list ClaudeStreamMessage) (j : nat)
  : list string :=
  from_option extractTaskToolUseIds [] (messages !! j).

Definition parent_at (messages : list ClaudeStreamMessage) (j : nat)
  : option string :=
  messages !! j ≫= getParentToolUseId.

(** The message at index [i] names [T] as its parent. *)
Definition child_of (messages : list ClaudeStreamMessage) (T : string)
    (i : nat) : Prop :=
  parent_at messages i = Some T.

Global Instance child_of_dec (messages : list ClaudeStreamMessage)
    (T : string) (i : nat) : Decision (child_of messages T i).
Proof. unfold child_of. apply _. Defined.

(** The indices the loop of the second pass visits for a task message at
    index [start], restricted to the children of [T]. *)
Definition children_after (messages : list ClaudeStreamMessage) (T : string)
    (start : nat) : list nat :=
  filter (child_of messages T) (seq (S start) (length messages - S start)).

(** The original indices of the messages owned by a group: those after the
    group's start whose parent id is the group's id, in ascending order. *)
Definition member_indices (messages : list ClaudeStreamMessage)
    (g : SubagentGroup) : list nat :=
  filter (λ i, startIndex g < i ∧ parent_at messages i = Some (group_id g))
         (seq 0 (length messages)).

(** The index [j] is shown as a normal entry by the third pass: it has not
    been consumed by a group and none of its task ids has a group. *)
Definition shows_normal (messages : list ClaudeStreamMessage) (j : nat) : Prop :=
  (j ∉ processedIndices messages)
  ∧ Forall (λ T, subagentGroups messages !! T = None) (task_ids_at messages j).

Global Instance shows_normal_dec (messages : list ClaudeStreamMessage)
    (j : nat) : Decision (shows_normal messages j).
Proof. unfold shows_normal. apply _. Defined.

Definition standalone_indices (messages : list ClaudeStreamMessage) : list nat :=
  filter (shows_normal messages) (seq 0 (length messages)).

(** *** The sequences *)

(** The subagent groups and the normal entries of an intermediate
    sequence, in order. *)
Definition igroups_of (l : list IntermediateGroup) : list SubagentGroup :=
  omap (λ e, match e with ISubagent g => Some g | _ => None end) l.

Definition normal_entries (l : list IntermediateGroup)
  : list (ClaudeStreamMessage * nat) :=
  omap (λ e, match e with INormal m i => Some (m, i) | _ => None end) l.

(** The subagent groups of a final sequence, in order. *)
Definition groups_of (out : list MessageGroup) : list SubagentGroup :=
  omap (λ e, match e with Subagent g => Some g | _ => None end) out.

(** The messages a final sequence shows on their own, outside the subagent
    groups: the normal payloads and the members of the aggregated runs. *)
Definition standalone (out : list MessageGroup) : list ClaudeStreamMessage :=
  out ≫= λ e, match e with
              | Normal m _ => [m]
              | Aggregated ms _ => ms
              | Subagent _ => []
              end.

(** All the messages of a final sequence in the order they are shown: a
    subagent group shows its task message and then its members. *)
Definition flatten (out : list MessageGroup) : list ClaudeStreamMessage :=
  out ≫= λ e, match e with
              | Normal m _ => [m]
              | Aggregated ms _ => ms
              | Subagent g => taskMessage g :: subagentMessages g
              end.

(** An entry of the intermediate sequence that ends a technical run: a
    subagent group, or a normal message that is not technical. *)
Definition run_boundary (g : IntermediateGroup) : Prop :=
  match g with
  | ISubagent _ => True
  | INormal m _ => isTechnicalMessage m = false
  end.

(** A neighbour of a run: a boundary entry, or the end of the sequence. *)
Definition boundary_or_end (o : option IntermediateGroup) : Prop :=
  from_option run_boundary True o.

(** The final entry that stands for a boundary entry. *)
Definition passed_through (g : IntermediateGroup) : MessageGroup :=
  match g with
  | INormal m i => Normal m i
  | ISubagent group => Subagent group
  end.

(** Consecutive normal entries, from their messages and indices. *)
Definition normal_run (ms : list (ClaudeStreamMessage * nat))
  : list IntermediateGroup :=
  map (λ p, INormal p.1 p.2) ms.

(** The messages of the run that is open in a state of the fourth pass. *)
Definition pending (st : AggState) : list ClaudeStreamMessage :=
  from_option agg_messages [] (currentAggregation st).

(** *** Loop invariants *)

(** What the first pass has established once the messages before index [i]
    have been visited. *)
Record resolver_inv (messages : list ClaudeStreamMessage) (i : nat)
    (r : Resolver) : Prop := mkResolverInv {
  inv_task_info : ∀ T info,
    taskToolUseMap r !! T = Some info →
    info_index info < i
    ∧ messages !! info_index info = Some (info_message info)
    ∧ T ∈ task_ids_at messages (info_index info);
  inv_task_dom : ∀ T,
    is_Some (taskToolUseMap r !! T) ↔ ∃ j, j < i ∧ T ∈ task_ids_at messages j;
  inv_index_ids : ∀ j,
    indexToTaskIds r !! j
    = if decide (j < i ∧ task_ids_at messages j ≠ [])
      then Some (task_ids_at messages j) else None;
}.

(** The conditions under which the inner loop of the third pass keeps the
    invariants of the groups it has pushed. *)
Definition groups_inv (messages : list ClaudeStreamMessage) (b : Builder)
  : Prop :=
  (∀ g, ISubagent g ∈ intermediateGroups b →
        subagentGroups messages !! group_id g = Some g
        ∧ group_id g ∈ addedTaskGroups b)
  ∧ NoDup (group_id <$> igroups_of (intermediateGroups b)).

(** What the third pass has established once the messages before index [i]
    have been visited. *)
Record builder_inv (messages : list ClaudeStreamMessage) (i : nat)
    (b : Builder) : Prop := mkBuilderInv {
  inv_normals :
    normal_entries (intermediateGroups b)
    = omap (λ j, (λ m, (m, j)) <$> messages !! j)
           (filter (shows_normal messages) (seq 0 i));
  inv_groups_stored : ∀ g,
    ISubagent g ∈ intermediateGroups b →
    subagentGroups messages !! group_id g = Some g
    ∧ group_id g ∈ addedTaskGroups b;
  inv_groups_nodup : NoDup (group_id <$> igroups_of (intermediateGroups b));
}.


(** *** Regular transcripts *)


(** ** Sample transcripts *)

Definition text_item (s : string) : ContentItem :=
  mkItem "text" (Some s) None None None None.

Definition task_item (tid : string) : ContentItem :=
  mkItem "tool_use" None (Some tid) (Some "Task") None (Some "explorer").

Definition tool_item (tid : string) : ContentItem :=
  mkItem "tool_use" None (Some tid) (Some "Read") None None.

Definition assistant_msg (r : nat) (parent : option string)
    (items : list ContentItem) : ClaudeStreamMessage :=
  mkMsg r "assistant" None None parent None None
        (Some (mkBody (Some (ContentArray items)) None)).

Definition user_msg (r : nat) (parent : option string) (s : string)
  : ClaudeStreamMessage :=
  mkMsg r "user" None None parent None None
        (Some (mkBody (Some (ContentText s)) None)).

(** A message of type ['thinking'] with no [message] field at all. *)
Definition bare_thinking : ClaudeStreamMessage :=
  mkMsg 0 "thinking" None None None None None None.

(** Two distinct objects that agree on every field except that only the
    second carries a timestamp. *)
Definition untimed : ClaudeStreamMessage :=
  mkMsg 0 "user" (Some "m1") None None None None
        (Some (mkBody (Some (ContentText "hello")) None)).

Definition timed : ClaudeStreamMessage :=
  mkMsg 1 "user" (Some "m1") (Some "2024-01-01T00:00:00Z") None None None
        (Some (mkBody (Some (ContentText "hello")) None)).

(** A task message at index 0 whose only child comes after an ordinary
    user message. *)
Definition interleaved_transcript : list ClaudeStreamMessage :=
  [assistant_msg 10 None [text_item "delegating"; task_item "T"];
   user_msg 11 None "meanwhile";
   user_msg 12 (Some "T") "subagent output"].


(** A message that names task ["T"] as its parent but precedes the task
    message. *)
Definition early_child_transcript : list ClaudeStreamMessage :=
  [user_msg 30 (Some "T") "early";
   assistant_msg 31 None [task_item "T"];
   user_msg 32 (Some "T") "late"].

(** An ordinary message whose parent id names no task of the transcript. *)
Definition dangling_transcript : list ClaudeStreamMessage :=
  [user_msg 40 None "question"; user_msg 41 (Some "gone") "orphan"].

(** ** Further vocabulary *)

(** *** The extractors *)

(** [item] is one of the Task tool calls in the content of [m]. *)
Definition task_item_of (m : ClaudeStreamMessage) (item : ContentItem) : Prop :=
  ∃ items, content_of m = Some (ContentArray items)
           ∧ item ∈ items
           ∧ item_type item = "tool_use"
           ∧ Js.toLowerCase <$> item_name item = Some "task".

(** The step of the loop that fills the details map. *)
Definition details_step (details : gmap string (option string))
    (item : ContentItem) : gmap string (option string) :=
  match item_id item with
  | Some i =>
      if Js.truthy (Some i) then <[i := item_subagent_type item]> details
      else details
  | None => details
  end.

(** *** Well-formed output *)

Definition is_aggregated (e : MessageGroup) : bool :=
  match e with
  | Aggregated _ _ => true
  | _ => false
  end.

(** No aggregated run is directly followed by another one. *)
Fixpoint no_adjacent_aggregated (out : list MessageGroup) : Prop :=
  match out with
  | [] => True
  | e :: tl =>
      match tl with
      | e' :: _ => ¬ (is_aggregated e = true ∧ is_aggregated e' = true)
      | [] => True
      end
      ∧ no_adjacent_aggregated tl
  end.

(** Where an entry of the final sequence comes from in the intermediate
    sequence [l]: a normal entry is a non-technical normal entry of [l]; a
    subagent entry is one of [l]; an aggregated run is not empty, is indexed
    by the normal entry of its first message, and holds technical messages
    of normal entries of [l] only. *)
Definition entry_from (l : list IntermediateGroup) (e : MessageGroup) : Prop :=
  match e with
  | Normal m i => INormal m i ∈ l ∧ isTechnicalMessage m = false
  | Subagent g => ISubagent g ∈ l
  | Aggregated ms i =>
      (∃ m0 rest, ms = m0 :: rest ∧ INormal m0 i ∈ l)
      ∧ Forall (λ m, isTechnicalMessage m = true ∧ ∃ i', INormal m i' ∈ l) ms
  end.

(** What the fourth pass has established after the entries [l]. *)
Definition agg_inv (l : list IntermediateGroup) (st : AggState) : Prop :=
  Forall (entry_from l) (finalGroups st)
  ∧ no_adjacent_aggregated (finalGroups st)
  ∧ from_option (λ e, is_aggregated e = false) True (last (finalGroups st))
  ∧ from_option (λ a, entry_from l (Aggregated (agg_messages a)
                                               (agg_startIndex a)))
                True (currentAggregation st).

(** How an entry of the output refers to the input: a normal entry holds
    the message at its index, which is not technical; an aggregated run is
    not empty, its index is that of its first message, and its messages are
    technical messages of the input. *)
Definition entry_of_input (messages : list ClaudeStreamMessage)
    (e : MessageGroup) : Prop :=
  match e with
  | Normal m i => messages !! i = Some m ∧ isTechnicalMessage m = false
  | Subagent g => subagentGroups messages !! group_id g = Some g
  | Aggregated ms i =>
      (∃ m0 rest, ms = m0 :: rest ∧ messages !! i = Some m0)
      ∧ Forall (λ m, isTechnicalMessage m = true ∧ m ∈ messages) ms
  end.

(** *** The comparators *)

(** What the group comparator requires of two distinct group objects. *)
Definition groups_agree (a b : MessageGroup) : Prop :=
  match a, b with
  | Normal pm _, Normal nm _ => isMessageEqual (Some pm) (Some nm) = true
  | Subagent pg, Subagent ng =>
      isMessageEqual (Some (taskMessage pg)) (Some (taskMessage ng)) = true
      ∧ Forall2 (λ p n, isMessageEqual (Some p) (Some n) = true)
                (subagentMessages pg) (subagentMessages ng)
  | Aggregated _ _, Aggregated _ _ => True
  | _, _ => False
  end.

(** The props [p] with other values for the props that the comparator does
    not read when a group is supplied. *)
Definition with_ungrouped_props (p : StreamMessageV2Props)
    (msg : option ClaudeStreamMessage) (cls path : option string)
  : StreamMessageV2Props :=
  {| prop_message := msg;
     prop_messageGroup := prop_messageGroup p;
     prop_className := cls;
     prop_claudeSettings := prop_claudeSettings p;
     prop_isStreaming := prop_isStreaming p;
     prop_promptIndex := prop_promptIndex p;
     prop_sessionId := prop_sessionId p;
     prop_projectId := prop_projectId p;
     prop_projectPath := path |}.

(** Props of a streaming message of a session, without a group. *)
Definition message_props (m : ClaudeStreamMessage) : StreamMessageV2Props :=
  mkProps (Some m) None None (Some (mkSettings (Some true))) (Some true)
          (Some 3) (Some "session") (Some "project") (Some "/repo").

(** The same props for one entry of a grouped transcript. *)
Definition group_props (g : MessageGroup) : StreamMessageV2Props :=
  mkProps None (Some g) None (Some (mkSettings (Some true))) (Some true)
          (Some 3) (Some "session") (Some "project") (Some "/repo").

(** *** What the output shows *)


(** *** The order of the entries *)

(** The original indices of the messages that an entry of the third pass
    shows, in the order it shows them, and the messages themselves. *)
Definition shown_indices (messages : list ClaudeStreamMessage)
    (e : IntermediateGroup) : list nat :=
  match e with
  | INormal _ j => [j]
  | ISubagent g => startIndex g :: member_indices messages g
  end.

Definition shown_messages (e : IntermediateGroup) : list ClaudeStreamMessage :=
  match e with
  | INormal m _ => [m]
  | ISubagent g => taskMessage g :: subagentMessages g
  end.

(** An entry that stands after a group emitted at index [k]: a normal entry
    of a later index, or a group that starts at [k] or later. *)
Definition stands_after (k : nat) (e : IntermediateGroup) : Prop :=
  match e with
  | INormal _ j => k < j
  | ISubagent g => k ≤ startIndex g
  end.

(** The order of a sequence of entries. Every index shown after a normal
    entry is larger than the index of the entry. A group is followed by
    entries that stand after an index [k] at which a message carries the
    id of the group, and [k] is not after the start of the group. *)
Fixpoint ordered_entries (messages : list ClaudeStreamMessage)
    (l : list IntermediateGroup) : Prop :=
  match l with
  | [] => True
  | e :: rest =>
      match e with
      | INormal _ j =>
          Forall (λ e', Forall (λ x, j < x) (shown_indices messages e')) rest
      | ISubagent g =>
          ∃ k, k ≤ startIndex g
               ∧ group_id g ∈ task_ids_at messages k
               ∧ Forall (stands_after k) rest
      end
      ∧ ordered_entries messages rest
  end.

(** The same order for the entries pushed so far by the third pass: the
    normal entries have indices below [n] and the groups have been emitted
    at indices below [b]. *)
Fixpoint ordered_within (messages : list ClaudeStreamMessage) (n b : nat)
    (l : list IntermediateGroup) : Prop :=
  match l with
  | [] => True
  | e :: rest =>
      match e with
      | INormal _ j =>
          j < n
          ∧ Forall (λ e', Forall (λ x, j < x) (shown_indices messages e')) rest
      | ISubagent g =>
          ∃ k, k < b
               ∧ k ≤ startIndex g
               ∧ group_id g ∈ task_ids_at messages k
               ∧ Forall (stands_after k) rest
      end
      ∧ ordered_within messages n b rest
  end.

(** Two messages carry the task ["T"]; an ordinary user message stands
    between them and the only child comes last. *)
Definition repeated_task_transcript : list ClaudeStreamMessage :=
  [assistant_msg 50 None [task_item "T"];
   user_msg 51 None "meanwhile";
   assistant_msg 52 None [task_item "T"];
   user_msg 53 (Some "T") "subagent output"].
(** ** Properties of the classifier *)

Lemma string_eqb_true (a b : string) : String.eqb a b = true ↔ a = b.
Proof. apply String.eqb_eq. Qed.

Lemma string_eqb_false (a b : string) : String.eqb a b = false ↔ a ≠ b.
Proof. apply String.eqb_neq. Qed.

Lemma trim_length_zero (t : string) :
  (String.length (Js.trim t) =? 0)%nat = true ↔ Js.trim t = "".
Proof.
  destruct (Js.trim t); simpl; split; intros H; done.
Qed.

Lemma technical_item_allowed (item : ContentItem) :
  technical_item item = true ↔ allowed_item item.
Proof.
  unfold technical_item, allowed_item.
  destruct (String.eqb (item_type item) "tool_use") eqn:E1.
  { apply string_eqb_true in E1. tauto. }
  destruct (String.eqb (item_type item) "tool_result") eqn:E2.
  { apply string_eqb_true in E2. tauto. }
  destruct (String.eqb (item_type item) "thinking") eqn:E3.
  { apply string_eqb_true in E3. tauto. }
  apply string_eqb_false in E1, E2, E3.
  destruct (String.eqb (item_type item) "text") eqn:E4.
  - apply string_eqb_true in E4.
    destruct (item_text item) as [t|] eqn:Et.
    + split.
      * intros H. do 3 right. split; [done|]. right. exists t. split; [done|].
        apply orb_true_iff in H as [H|H].
        -- simpl in H. apply negb_true_iff, negb_false_iff, string_eqb_true in H.
           by subst t.
        -- by apply trim_length_zero.
      * intros [?|[?|[?|[_ [?|(t' & [= <-] & Ht)]]]]]; try done.
        apply orb_true_iff. right. by apply trim_length_zero.
    + split; [|done]. intros _. do 3 right. split; [done|by left].
  - apply string_eqb_false in E4.
    split; [done|]. intros [?|[?|[?|[? _]]]]; done.
Qed.

Lemma forallb_technical_items (items : list ContentItem) :
  forallb technical_item items = true ↔ Forall allowed_item items.
Proof.
  induction items as [|item items IH]; simpl.
  - split; [constructor|done].
  - rewrite andb_true_iff, Forall_cons, IH, technical_item_allowed. done.
Qed.

Lemma as_array_Some (c : option MessageContent) (items : list ContentItem) :
  as_array c = Some items ↔ c = Some (ContentArray items).
Proof.
  destruct c as [[s|l]|]; simpl; split; intros H; try done; congruence.
Qed.

(** C8. [isTechnicalMessage] holds of every message of type ['thinking'],
    whatever its content; of any other message it holds exactly when the
    type is ['assistant'], the content is an item sequence, and every item
    is a [tool_use], [tool_result] or [thinking] item or a [text] item whose
    text is absent or trims to the empty string. *)
Theorem isTechnicalMessage_spec (m : ClaudeStreamMessage) :
  isTechnicalMessage m = true ↔
    type m = "thinking"
    ∨ (type m = "assistant"
       ∧ ∃ items, content_of m = Some (ContentArray items)
                  ∧ Forall allowed_item items).
Proof.
  unfold isTechnicalMessage.
  destruct (String.eqb (type m) "thinking") eqn:Eth.
  { apply string_eqb_true in Eth. split; [by left|done]. }
  apply string_eqb_false in Eth.
  destruct (String.eqb (type m) "assistant") eqn:Eas; simpl.
  - apply string_eqb_true in Eas.
    destruct (as_array (content_of m)) as [items|] eqn:Earr.
    + apply as_array_Some in Earr. rewrite forallb_technical_items.
      split.
      * intros H. right. split; [done|]. by exists items.
      * intros [?|[_ (items' & Hc & Hall)]]; [done|]. congruence.
    + split; [done|].
      intros [?|[_ (items' & Hc & _)]]; [done|].
      apply as_array_Some in Hc. congruence.
  - apply string_eqb_false in Eas. split; [done|].
    intros [?|[? _]]; done.
Qed.

(** C3, as the code has it. When the content is missing or is not an item
    sequence, [hasTaskToolCall] is false, and [isTechnicalMessage] is false
    unless the message's type is ['thinking'], for which it is true. *)
Theorem classifier_without_item_sequence (m : ClaudeStreamMessage) :
  as_array (content_of m) = None →
  hasTaskToolCall m = false
  ∧ isTechnicalMessage m = String.eqb (type m) "thinking".
Proof.
  intros Harr. unfold hasTaskToolCall, isTechnicalMessage. rewrite Harr.
  split.
  - by destruct (negb (String.eqb (type m) "assistant")).
  - destruct (String.eqb (type m) "thinking"); [done|].
    by destruct (negb (String.eqb (type m) "assistant")).
Qed.

(** The hypothesis of C3 holds of a user message with a plain text
    content. *)
Lemma classifier_without_item_sequence_witness :
  hasTaskToolCall (user_msg 0 None "hello") = false
  ∧ isTechnicalMessage (user_msg 0 None "hello") = false.
Proof.
  exact (classifier_without_item_sequence (user_msg 0 None "hello") eq_refl).
Defined.

(** C3 fails as stated: a ['thinking'] message without any content is
    technical. *)
Lemma thinking_without_content_is_technical :
  content_of bare_thinking = None
  ∧ hasTaskToolCall bare_thinking = false
  ∧ isTechnicalMessage bare_thinking = true.
Proof. by vm_compute. Qed.

(** ** Properties of the equality oracle *)

(** C7. Two groups of type ['aggregated'] always compare equal: the
    comparator looks at neither their messages nor their indices. *)
Theorem aggregated_groups_compare_equal (same : bool)
    (ms1 ms2 : list ClaudeStreamMessage) (i1 i2 : nat) :
  isMessageGroupEqual same (Some (Aggregated ms1 i1)) (Some (Aggregated ms2 i2))
  = true.
Proof. by destruct same. Qed.

(** C6 at the input that separates code and claim: two messages that agree
    on type, id, content and usage, of which exactly one carries a
    timestamp, compare unequal. *)
Theorem one_sided_timestamp_not_equal :
  isMessageEqual (Some untimed) (Some timed) = false
  ∧ isMessageEqual (Some timed) (Some untimed) = false.
Proof. by vm_compute. Qed.

Lemma isMessageEqual_same_ref (p n : ClaudeStreamMessage) :
  ref p = ref n → isMessageEqual (Some p) (Some n) = true.
Proof.
  intros H. unfold isMessageEqual, same_message. rewrite H.
  by rewrite Nat.eqb_refl.
Qed.

Lemma subagent_messages_equal_refl (ms : list ClaudeStreamMessage) :
  subagent_messages_equal ms ms = true.
Proof.
  induction ms as [|m ms IH]; [done|]. simpl.
  by rewrite Nat.eqb_refl.
Qed.

Lemma isMessageGroupEqual_refl (same : bool) (g : MessageGroup) :
  isMessageGroupEqual same (Some g) (Some g) = true.
Proof.
  destruct same; [done|]. destruct g as [m i|g|ms i]; simpl.
  - by apply isMessageEqual_same_ref.
  - rewrite isMessageEqual_same_ref by done. simpl.
    rewrite Nat.eqb_refl. simpl. apply subagent_messages_equal_refl.
  - done.
Qed.

(** C10. Two runs of [groupMessages] over the same messages give sequences
    of the same length whose corresponding entries have the same tag and
    compare equal under [isMessageGroupEqual], also when the group objects
    of the two runs are distinct. *)
Theorem groupMessages_twice_equal (same : bool)
    (messages : list ClaudeStreamMessage) :
  let out1 := groupMessages messages in
  let out2 := groupMessages messages in
  length out1 = length out2
  ∧ Forall2 (λ g1 g2, group_tag g1 = group_tag g2
                      ∧ isMessageGroupEqual same (Some g1) (Some g2) = true)
            out1 out2.
Proof.
  simpl. split; [done|].
  induction (groupMessages messages) as [|g out IH]; constructor; [|done].
  split; [done|]. apply isMessageGroupEqual_refl.
Qed.

Lemma strict_eq_true `{EqDecision A} (a b : option A) :
  Js.strict_eq a b = true ↔ a = b.
Proof. unfold Js.strict_eq. apply bool_decide_eq_true. Qed.

Lemma strict_eq_false `{EqDecision A} (a b : option A) :
  negb (Js.strict_eq a b) = true ↔ a ≠ b.
Proof.
  unfold Js.strict_eq. rewrite negb_true_iff. apply bool_decide_eq_false.
Qed.

Lemma item_equal_agree (p n : ContentItem) :
  item_equal p n = true ↔ items_agree p n.
Proof.
  unfold item_equal, items_agree, Js.strict_eq.
  destruct (String.eqb_spec (item_type p) (item_type n)) as [Ety|Ety]; simpl.
  2: { split; [done|]. by intros [? _]. }
  destruct (String.eqb_spec (item_type p) "text") as [E1|E1];
    destruct (String.eqb_spec (item_type p) "tool_use") as [E2|E2];
    destruct (String.eqb_spec (item_type p) "tool_result") as [E3|E3];
    try congruence; simpl;
    repeat case_bool_decide; simpl; split; try done; intuition congruence.
Qed.

Lemma items_equal_agree (ps ns : list ContentItem) :
  (length ps =? length ns) = true ∧ items_equal ps ns = true
  ↔ Forall2 items_agree ps ns.
Proof.
  revert ns. induction ps as [|p ps IH]; intros [|n ns]; simpl.
  - split; [constructor|done].
  - split; [by intros [? _]|by inversion 1].
  - split; [by intros [? _]|by inversion 1].
  - rewrite Forall2_cons, <-IH, <-item_equal_agree.
    destruct (item_equal p n); simpl; intuition congruence.
Qed.

Lemma content_check_agree (p n : ClaudeStreamMessage) :
  match as_array (content_of p), as_array (content_of n) with
  | Some ps, Some ns =>
      negb (length ps =? length ns) || negb (items_equal ps ns)
  | _, _ => negb (bool_decide (content_of p = content_of n))
  end = false
  ↔ contents_agree (content_of p) (content_of n).
Proof.
  unfold contents_agree.
  destruct (content_of p) as [[sp|ps]|], (content_of n) as [[sn|ns]|]; simpl;
    rewrite ?negb_false_iff, ?bool_decide_eq_true; try done.
  rewrite <-items_equal_agree, orb_false_iff, !negb_false_iff. done.
Qed.

Lemma isMessageEqual_iff (prev next : option ClaudeStreamMessage) :
  isMessageEqual prev next = true ↔
    match prev, next with
    | None, None => True
    | Some p, Some n => ref p = ref n ∨ messages_agree p n
    | _, _ => False
    end.
Proof.
  destruct prev as [p|], next as [n|]; simpl; try done.
  unfold isMessageEqual, same_message, messages_agree.
  destruct (Nat.eqb (ref p) (ref n)) eqn:Eref.
  { apply Nat.eqb_eq in Eref. split; [by left|done]. }
  apply Nat.eqb_neq in Eref.
  destruct (String.eqb (type p) (type n)) eqn:Ety; simpl.
  2: { apply string_eqb_false in Ety. split; [done|].
       by intros [?|[? _]]. }
  apply string_eqb_true in Ety.
  destruct (Js.truthy (id p) && Js.truthy (id n)
            && negb (Js.strict_eq (id p) (id n))) eqn:Eid.
  { apply andb_true_iff in Eid as [[Hp Hn]%andb_true_iff Hne].
    apply strict_eq_false in Hne. split; [done|].
    intros [?|(_ & Hid & _)]; [done|]. by specialize (Hid Hp Hn). }
  assert (Js.truthy (id p) = true → Js.truthy (id n) = true → id p = id n)
    as Hid.
  { intros Hp Hn. rewrite Hp, Hn in Eid. simpl in Eid.
    apply negb_false_iff, strict_eq_true in Eid. done. }
  destruct (Js.strict_eq (timestamp p) (timestamp n)) eqn:Ets; simpl.
  2: { split; [done|]. intros [?|(_ & _ & Hts & _)]; [done|].
       apply strict_eq_true in Hts. congruence. }
  apply strict_eq_true in Ets.
  pose proof (content_check_agree p n) as Hct.
  destruct (match as_array (content_of p), as_array (content_of n) with
            | Some ps, Some ns =>
                negb (length ps =? length ns) || negb (items_equal ps ns)
            | _, _ => negb (bool_decide (content_of p = content_of n))
            end).
  { split; [done|]. intros [?|(_ & _ & _ & Hc & _)]; [done|].
    by apply Hct in Hc. }
  assert (contents_agree (content_of p) (content_of n)) as Hc by by apply Hct.
  destruct (Js.strict_eq (usage_of p ≫= input_tokens)
                         (usage_of n ≫= input_tokens)) eqn:Ein; simpl.
  2: { split; [done|]. intros [?|(_ & _ & _ & _ & Hin & _)]; [done|].
       apply strict_eq_true in Hin. congruence. }
  apply strict_eq_true in Ein.
  destruct (Js.strict_eq (usage_of p ≫= output_tokens)
                         (usage_of n ≫= output_tokens)) eqn:Eout; simpl.
  2: { split; [done|]. intros [?|(_ & _ & _ & _ & _ & Hout)]; [done|].
       apply strict_eq_true in Hout. congruence. }
  apply strict_eq_true in Eout.
  split; [|done]. intros _. right. done.
Qed.

Lemma items_agree_refl (items : list ContentItem) :
  Forall2 items_agree items items.
Proof. induction items; constructor; [by repeat split|done]. Qed.

(** The comparator, as the code has it: two defined messages compare equal
    exactly when they are the same object or agree on the fields compared
    (type; the ids when both are truthy; the timestamps, where an absent
    one equals only an absent one; the contents; the token counts); two
    absent messages compare equal; an absent and a defined one do not. *)
Theorem isMessageEqual_spec (prev next : option ClaudeStreamMessage) :
  isMessageEqual prev next = true ↔
    match prev, next with
    | None, None => True
    | Some p, Some n => ref p = ref n ∨ messages_agree p n
    | _, _ => False
    end.
Proof. exact (isMessageEqual_iff prev next). Qed.

(** A second object with the same fields compares equal to the first. *)
Theorem copy_compares_equal (r : nat) (m : ClaudeStreamMessage) :
  isMessageEqual (Some m) (Some (copy_of r m)) = true.
Proof.
  apply isMessageEqual_iff. right. unfold messages_agree, copy_of.
  repeat split; try done.
  unfold contents_agree, content_of. simpl.
  destruct (message m ≫= content) as [[s|items]|]; try done.
  apply items_agree_refl.
Qed.

(** ** Properties of the aggregation pass *)

Lemma flush_prefix (pfx fg : list MessageGroup) (cur : option Aggregation) :
  flush (mkAggState (pfx ++ fg) cur) = pfx ++ flush (mkAggState fg cur).
Proof. unfold flush. simpl. destruct cur; by rewrite <-?app_assoc. Qed.

Lemma aggregate_step_prefix (pfx fg : list MessageGroup)
    (cur : option Aggregation) (g : IntermediateGroup) :
  aggregate_step (mkAggState (pfx ++ fg) cur) g
  = mkAggState (pfx ++ finalGroups (aggregate_step (mkAggState fg cur) g))
               (currentAggregation (aggregate_step (mkAggState fg cur) g)).
Proof.
  destruct g as [m i|g]; simpl.
  - destruct (isTechnicalMessage m); simpl; [done|].
    by rewrite flush_prefix, <-app_assoc.
  - by rewrite flush_prefix, <-app_assoc.
Qed.

Lemma foldl_aggregate_prefix (l : list IntermediateGroup) :
  ∀ (pfx fg : list MessageGroup) (cur : option Aggregation),
    foldl aggregate_step (mkAggState (pfx ++ fg) cur) l
    = mkAggState
        (pfx ++ finalGroups (foldl aggregate_step (mkAggState fg cur) l))
        (currentAggregation (foldl aggregate_step (mkAggState fg cur) l)).
Proof.
  induction l as [|g l IH]; intros pfx fg cur; [done|].
  simpl. rewrite aggregate_step_prefix.
  destruct (aggregate_step (mkAggState fg cur) g) as [fg' cur'].
  simpl. apply IH.
Qed.

Lemma flush_foldl_prefix (l : list IntermediateGroup)
    (fg : list MessageGroup) (cur : option Aggregation) :
  flush (foldl aggregate_step (mkAggState fg cur) l)
  = fg ++ flush (foldl aggregate_step (mkAggState [] cur) l).
Proof.
  rewrite <-(app_nil_r fg) at 1. rewrite foldl_aggregate_prefix.
  destruct (foldl aggregate_step (mkAggState [] cur) l) as [fg' cur'].
  apply flush_prefix.
Qed.

Lemma aggregate_step_boundary (st : AggState) (b : IntermediateGroup) :
  run_boundary b →
  aggregate_step st b = mkAggState (flush st ++ [passed_through b]) None.
Proof.
  destruct b as [m i|g]; simpl; [|done]. by intros ->.
Qed.

(** A boundary entry closes whatever run is open and is passed through; the
    entries after it are aggregated on their own. *)
Lemma aggregate_boundary_cons (st : AggState) (b : IntermediateGroup)
    (l : list IntermediateGroup) :
  run_boundary b →
  flush (foldl aggregate_step st (b :: l))
  = flush st ++ passed_through b :: aggregate l.
Proof.
  intros Hb. simpl. rewrite (aggregate_step_boundary _ _ Hb).
  rewrite flush_foldl_prefix. unfold aggregate.
  by rewrite <-app_assoc.
Qed.

(** After a prefix that ends with a boundary entry no run is open. *)
Lemma state_after_boundary (pre : list IntermediateGroup) :
  boundary_or_end (last pre) →
  foldl aggregate_step (mkAggState [] None) pre
  = mkAggState (aggregate pre) None.
Proof.
  destruct pre as [|b pre' _] using rev_ind; [done|].
  rewrite last_snoc. simpl. intros Hb.
  unfold aggregate. rewrite foldl_app. simpl.
  by rewrite (aggregate_step_boundary _ _ Hb).
Qed.

(** Technical entries only extend the open run. *)
Lemma technical_run_state (ms : list (ClaudeStreamMessage * nat)) :
  ∀ (fg : list MessageGroup) (a : Aggregation),
    Forall (λ p, isTechnicalMessage p.1 = true) ms →
    foldl aggregate_step (mkAggState fg (Some a)) (normal_run ms)
    = mkAggState fg (Some (mkAgg (agg_messages a ++ ms.*1) (agg_startIndex a))).
Proof.
  induction ms as [|[m i] ms IH]; intros fg a Hall; simpl.
  - rewrite app_nil_r. by destruct a.
  - apply Forall_cons in Hall as [Hm Hall]. simpl in Hm. rewrite Hm. simpl.
    rewrite IH by done. simpl. by rewrite <-app_assoc.
Qed.

Lemma aggregate_subagent_split (l1 l2 : list IntermediateGroup)
    (g : SubagentGroup) :
  aggregate (l1 ++ ISubagent g :: l2)
  = aggregate l1 ++ Subagent g :: aggregate l2.
Proof.
  unfold aggregate at 1. rewrite foldl_app.
  by rewrite (aggregate_boundary_cons _ (ISubagent g)).
Qed.

(** C4. A maximal run of technical normal entries, [m] at index [i] followed
    by [ms], between boundary entries or the ends of the sequence, becomes
    exactly one [Aggregated] entry that holds the run's messages in order
    under the first member's index, also when the run is a single message;
    and a run never spans a subagent entry, which always separates what is
    aggregated before it from what is aggregated after it. *)
Theorem technical_run_aggregated (pre post : list IntermediateGroup)
    (m : ClaudeStreamMessage) (i : nat)
    (ms : list (ClaudeStreamMessage * nat)) :
  Forall (λ p, isTechnicalMessage p.1 = true) ((m, i) :: ms) →
  boundary_or_end (last pre) →
  boundary_or_end (head post) →
  aggregate (pre ++ normal_run ((m, i) :: ms) ++ post)
  = aggregate pre ++ [Aggregated (m :: ms.*1) i] ++ aggregate post
  ∧ ∀ l1 g l2, aggregate (l1 ++ ISubagent g :: l2)
               = aggregate l1 ++ Subagent g :: aggregate l2.
Proof.
  intros Hall Hpre Hpost. split; [|intros; apply aggregate_subagent_split].
  apply Forall_cons in Hall as [Hm Hall]. simpl in Hm.
  unfold aggregate at 1. rewrite !foldl_app.
  rewrite (state_after_boundary _ Hpre). simpl. rewrite Hm. simpl.
  rewrite (technical_run_state ms _ (mkAgg [m] i) Hall). simpl.
  destruct post as [|b post'].
  - done.
  - simpl in Hpost. rewrite (aggregate_boundary_cons _ b) by done.
    unfold flush at 1. simpl. rewrite <-app_assoc. simpl.
    do 2 f_equal.
    unfold aggregate at 2. by rewrite (aggregate_boundary_cons _ b).
Qed.

(** The hypotheses of C4 hold of a single tool call between two user
    messages. *)
Lemma technical_run_aggregated_witness :
  aggregate ([INormal (user_msg 0 None "hi") 0]
             ++ normal_run [(assistant_msg 1 None [tool_item "a"], 1)]
             ++ [INormal (user_msg 2 None "bye") 2])
  = aggregate [INormal (user_msg 0 None "hi") 0]
    ++ [Aggregated [assistant_msg 1 None [tool_item "a"]] 1]
    ++ aggregate [INormal (user_msg 2 None "bye") 2].
Proof.
  refine (proj1 (technical_run_aggregated
                   [INormal (user_msg 0 None "hi") 0]
                   [INormal (user_msg 2 None "bye") 2]
                   (assistant_msg 1 None [tool_item "a"]) 1 [] _ _ _)).
  - by repeat constructor.
  - reflexivity.
  - reflexivity.
Defined.

(** ** Loop invariants *)

(** The invariant rule of [forEach]: [P j s] relates the state [s] to the
    number [j] of elements already visited. *)
Lemma forEach_from_invariant {A St : Type} (f : St → A → nat → St)
    (P : nat → St → Prop) (l : list A) :
  (∀ j x s, l !! j = Some x → P j s → P (S j) (f s x j)) →
  ∀ rest i s, i ≤ length l → drop i l = rest → P i s →
              P (length l) (forEach_from f i rest s).
Proof.
  intros Hstep rest.
  induction rest as [|x rest IH]; intros i s Hi Hdrop HP; simpl.
  - apply (f_equal length) in Hdrop. rewrite length_drop in Hdrop.
    simpl in Hdrop. by replace (length l) with i by lia.
  - assert (l !! i = Some x) as Hx.
    { by rewrite <-(Nat.add_0_r i), <-lookup_drop, Hdrop. }
    rewrite (drop_S _ _ _ Hx) in Hdrop. injection Hdrop as Hdrop.
    apply IH; [|done|by apply Hstep].
    apply lookup_lt_Some in Hx. lia.
Qed.

Lemma forEach_invariant {A St : Type} (f : St → A → nat → St)
    (P : nat → St → Prop) (l : list A) (s : St) :
  P 0 s →
  (∀ j x s, l !! j = Some x → P j s → P (S j) (f s x j)) →
  P (length l) (forEach f l s).
Proof.
  intros H0 Hstep.
  by apply (forEach_from_invariant f P l Hstep l 0 s); [lia| |].
Qed.

(** ** The first pass *)

Lemma nonempty_length {A : Type} (l : list A) :
  (0 <? length l)%nat = true ↔ l ≠ [].
Proof. destruct l; simpl; split; intros H; done. Qed.

Lemma foldl_record_task_index (msg : ClaudeStreamMessage) (i : nat)
    (d : gmap string (option string)) (ids : list string) :
  ∀ r, indexToTaskIds (foldl (record_task msg i d) r ids) = indexToTaskIds r.
Proof.
  induction ids as [|T ids IH]; intros r; simpl; [done|]. by rewrite IH.
Qed.

Lemma foldl_record_task_lookup (msg : ClaudeStreamMessage) (i : nat)
    (d : gmap string (option string)) (ids : list string) (T : string) :
  ∀ r, taskToolUseMap (foldl (record_task msg i d) r ids) !! T
       = if decide (T ∈ ids) then Some (mkInfo msg i)
         else taskToolUseMap r !! T.
Proof.
  induction ids as [|T' ids IH]; intros r; cbn [foldl].
  - by rewrite decide_False by apply not_elem_of_nil.
  - rewrite IH. cbn [record_task taskToolUseMap].
    destruct (decide (T ∈ ids)) as [Hin|Hnin].
    + by rewrite decide_True by (by right).
    + destruct (decide (T' = T)) as [->|Hne].
      * rewrite lookup_insert_eq. by rewrite decide_True by left.
      * rewrite lookup_insert_ne by done.
        rewrite decide_False; [done|].
        intros [?|?]%elem_of_cons; congruence.
Qed.

Lemma task_ids_at_lookup (messages : list ClaudeStreamMessage) (j : nat)
    (m : ClaudeStreamMessage) :
  messages !! j = Some m → task_ids_at messages j = extractTaskToolUseIds m.
Proof. unfold task_ids_at. by intros ->. Qed.

Lemma resolve_step_inv (messages : list ClaudeStreamMessage) (j : nat)
    (m : ClaudeStreamMessage) (r : Resolver) :
  messages !! j = Some m →
  resolver_inv messages j r →
  resolver_inv messages (S j) (resolve_step r m j).
Proof.
  intros Hm [Hinfo Hdom Hidx]. unfold resolve_step.
  pose proof (task_ids_at_lookup _ _ _ Hm) as Hids.
  destruct (0 <? length (extractTaskToolUseIds m))%nat eqn:Hlen.
  - apply nonempty_length in Hlen. split.
    + intros T info. rewrite foldl_record_task_lookup. simpl.
      case_decide as Hin.
      * intros [= <-]. simpl. rewrite Hids. split; [lia|done].
      * intros Hl. destruct (Hinfo _ _ Hl) as (? & ? & ?).
        split; [lia|done].
    + intros T. rewrite foldl_record_task_lookup. simpl.
      case_decide as Hin.
      * split; [|by eauto]. intros _. exists j. rewrite Hids. split; [lia|done].
      * rewrite Hdom. split; intros (k & Hk & HT).
        -- exists k. split; [lia|done].
        -- exists k. split; [|done].
           destruct (decide (k = j)) as [->|]; [|lia].
           rewrite Hids in HT. done.
    + intros k. rewrite foldl_record_task_index. simpl.
      destruct (decide (j = k)) as [<-|Hne].
      * rewrite lookup_insert_eq, decide_True; [by rewrite Hids|].
        split; [lia|by rewrite Hids].
      * rewrite lookup_insert_ne by done. rewrite Hidx.
        apply decide_ext. split; intros [? ?]; (split; [lia|done]).
  - assert (extractTaskToolUseIds m = []) as Hnil.
    { destruct (extractTaskToolUseIds m); [done|]. simpl in Hlen. done. }
    split.
    + intros T info Hl. destruct (Hinfo _ _ Hl) as (? & ? & ?).
      split; [lia|done].
    + intros T. rewrite Hdom. split; intros (k & Hk & HT).
      * exists k. split; [lia|done].
      * exists k. split; [|done].
        destruct (decide (k = j)) as [->|]; [|lia].
        rewrite Hids, Hnil in HT. by apply not_elem_of_nil in HT.
    + intros k. rewrite Hidx.
      apply decide_ext. split; intros [? Hk]; (split; [|done]); [lia|].
      destruct (decide (k = j)) as [->|]; [|lia].
      by rewrite Hids in Hk.
Qed.

Lemma resolve_inv (messages : list ClaudeStreamMessage) :
  resolver_inv messages (length messages) (resolve messages).
Proof.
  apply (forEach_invariant resolve_step (resolver_inv messages)).
  - split; unfold empty_resolver; cbn [taskToolUseMap indexToTaskIds].
    + intros T info. by rewrite lookup_empty.
    + intros T. rewrite lookup_empty. split.
      * by intros [? ?].
      * intros (j & ? & _). lia.
    + intros j. rewrite lookup_empty. case_decide; [lia|done].
  - intros j x s Hx Hs. by apply resolve_step_inv.
Qed.

(** ** The second pass *)

Lemma filter_ext_in {A : Type} (P Q : A → Prop)
    `{∀ x, Decision (P x), ∀ x, Decision (Q x)} (l : list A) :
  (∀ x, x ∈ l → P x ↔ Q x) → filter P l = filter Q l.
Proof.
  induction l as [|x l IH]; intros Hext; [done|].
  rewrite !filter_cons.
  rewrite IH by (intros y Hy; apply Hext; by right).
  destruct (decide (P x)) as [HP|HP], (decide (Q x)) as [HQ|HQ]; try done.
  - exfalso. apply HQ, Hext; [left|done].
  - exfalso. apply HP, Hext; [left|done].
Qed.

Lemma filter_none {A : Type} (P : A → Prop) `{∀ x, Decision (P x)}
    (l : list A) :
  (∀ x, x ∈ l → ¬ P x) → filter P l = [].
Proof.
  induction l as [|x l IH]; intros Hno; [done|].
  rewrite filter_cons_False by (apply Hno; left).
  apply IH. intros y Hy. apply Hno. by right.
Qed.

Lemma strongly_sorted_filter {A : Type} (R : relation A) (P : A → Prop)
    `{∀ x, Decision (P x)} (l : list A) :
  StronglySorted R l → StronglySorted R (filter P l).
Proof.
  induction 1 as [|x l Hs IH Hall]; [constructor|].
  rewrite filter_cons. destruct (decide (P x)); [|done].
  constructor; [done|].
  rewrite Forall_forall in Hall. apply Forall_forall.
  intros y [_ Hy]%list_elem_of_filter. by apply Hall.
Qed.

Lemma seq_strongly_sorted (s n : nat) : StronglySorted lt (seq s n).
Proof.
  revert s. induction n as [|n IH]; intros s; simpl; constructor; [apply IH|].
  apply Forall_forall. intros i [Hi _]%elem_of_seq. lia.
Qed.

(** The members of a group are the children found after its start. *)
Lemma member_indices_children (messages : list ClaudeStreamMessage)
    (g : SubagentGroup) :
  member_indices messages g
  = children_after messages (group_id g) (startIndex g).
Proof.
  unfold member_indices, children_after.
  set (n := length messages). set (a := startIndex g).
  destruct (decide (n ≤ S a)) as [Hle|Hgt].
  - replace (n - S a) with 0 by lia. simpl.
    apply filter_none. intros i [_ Hi]%elem_of_seq [Hlt _]. lia.
  - replace n with (S a + (n - S a)) at 1 by lia.
    rewrite seq_app, filter_app.
    rewrite (filter_none _ (seq 0 (S a))).
    + simpl. apply filter_ext_in. intros i [Hi _]%elem_of_seq.
      unfold child_of. split; [by intros [_ ?]|]. intros ?. split; [lia|done].
    + intros i [_ Hi]%elem_of_seq [Hlt _]. lia.
Qed.

Lemma member_indices_sorted (messages : list ClaudeStreamMessage)
    (g : SubagentGroup) :
  StronglySorted lt (member_indices messages g).
Proof.
  unfold member_indices. apply strongly_sorted_filter, seq_strongly_sorted.
Qed.

Lemma child_of_lookup (messages : list ClaudeStreamMessage) (T : string)
    (i : nat) (m : ClaudeStreamMessage) :
  messages !! i = Some m →
  child_of messages T i ↔ getParentToolUseId m = Some T.
Proof. unfold child_of, parent_at. by intros ->. Qed.

(** The loop of the second pass collects, in order, the messages at the
    child indices it visits, and the largest such index. *)
Lemma collect_spec (messages : list ClaudeStreamMessage) (T : string) :
  ∀ rest i subs mx,
    drop i messages = rest →
    collect T i rest subs mx
    = (subs ++ omap (messages !!.) (filter (child_of messages T)
                                           (seq i (length rest))),
       Nat.max mx (max_list (filter (child_of messages T)
                                    (seq i (length rest))))).
Proof.
  induction rest as [|m rest IH]; intros i subs mx Hdrop; simpl.
  - by rewrite app_nil_r, Nat.max_0_r.
  - assert (messages !! i = Some m) as Hm.
    { by rewrite <-(Nat.add_0_r i), <-lookup_drop, Hdrop. }
    rewrite (drop_S _ _ _ Hm) in Hdrop. injection Hdrop as Hdrop.
    pose proof (child_of_lookup messages T i m Hm) as Hchild.
    case_bool_decide as Hp.
    + rewrite filter_cons_True by by apply Hchild.
      rewrite (IH _ _ _ Hdrop). simpl. rewrite Hm. simpl.
      rewrite <-app_assoc. simpl. f_equal. lia.
    + rewrite filter_cons_False by (by rewrite Hchild).
      by rewrite (IH _ _ _ Hdrop).
Qed.

Lemma omap_lookup_Forall2 (messages : list ClaudeStreamMessage)
    (idxs : list nat) :
  Forall (λ i, i < length messages) idxs →
  Forall2 (λ i m, messages !! i = Some m) idxs (omap (messages !!.) idxs).
Proof.
  induction 1 as [|i idxs Hi _ IH]; simpl; [constructor|].
  destruct (lookup_lt_is_Some_2 messages i Hi) as [m Hm].
  rewrite Hm. simpl. by constructor.
Qed.

Lemma children_after_bounds (messages : list ClaudeStreamMessage)
    (T : string) (start i : nat) :
  i ∈ children_after messages T start →
  start < i ∧ i < length messages ∧ child_of messages T i.
Proof.
  unfold children_after.
  intros [Hc [? ?]%elem_of_seq]%list_elem_of_filter. repeat split; [lia..|done].
Qed.

Lemma max_list_above (start : nat) (idxs : list nat) :
  idxs ≠ [] → Forall (λ i, start < i) idxs →
  Nat.max start (max_list idxs) = max_list idxs.
Proof.
  intros Hne Hall. pose proof (max_list_elem_of idxs Hne) as Hin.
  rewrite Forall_forall in Hall. specialize (Hall _ Hin). lia.
Qed.

(** What the second pass stores for a task: nothing when the task has no
    child after its message, and otherwise the group of its children. *)
Lemma build_group_spec (messages : list ClaudeStreamMessage)
    (types : gmap string string) (T : string) (info : TaskInfo) :
  build_group messages types T info
  = if decide (children_after messages T (info_index info) = []) then None
    else Some {| group_id := T;
                 taskMessage := info_message info;
                 taskToolUseId := T;
                 subagentMessages :=
                   omap (messages !!.)
                        (children_after messages T (info_index info));
                 startIndex := info_index info;
                 endIndex :=
                   max_list (children_after messages T (info_index info));
                 subagentType := types !! T |}.
Proof.
  unfold build_group. rewrite (collect_spec messages T _ _ _ _ eq_refl).
  rewrite length_drop. replace (info_index info + 1) with (S (info_index info)) by lia.
  fold (children_after messages T (info_index info)).
  set (idxs := children_after messages T (info_index info)).
  assert (Forall (λ i, info_index info < i ∧ i < length messages) idxs) as Hb.
  { apply Forall_forall. intros i Hi.
    by destruct (children_after_bounds _ _ _ _ Hi) as (? & ? & _). }
  simpl. case_decide as Hnil.
  - by rewrite Hnil.
  - assert ((0 <? length (omap (messages !!.) idxs)) = true) as ->.
    { apply nonempty_length. intros Hemp.
      pose proof (omap_lookup_Forall2 messages idxs) as HF.
      rewrite Hemp in HF. apply Hnil.
      eapply Forall2_nil_inv_r, HF. eapply Forall_impl; [done|].
      by intros ? [? ?]. }
    rewrite max_list_above; [done..|].
    eapply Forall_impl; [done|]. by intros ? [? ?].
Qed.

Lemma subagentGroups_lookup (messages : list ClaudeStreamMessage) (T : string) :
  subagentGroups messages !! T
  = taskToolUseMap (resolve messages) !! T
    ≫= build_group messages (taskSubagentTypes (resolve messages)) T.
Proof. unfold subagentGroups, subagentGroupsOf. apply map_lookup_imap. Qed.

(** Every materialised group is stored under its own id, starts at the index
    of its task message, and holds the children found after it. *)
Lemma subagentGroups_Some (messages : list ClaudeStreamMessage) (T : string)
    (g : SubagentGroup) :
  subagentGroups messages !! T = Some g →
  group_id g = T
  ∧ startIndex g < length messages
  ∧ messages !! startIndex g = Some (taskMessage g)
  ∧ T ∈ task_ids_at messages (startIndex g)
  ∧ member_indices messages g ≠ []
  ∧ subagentMessages g = omap (messages !!.) (member_indices messages g)
  ∧ endIndex g = max_list (member_indices messages g).
Proof.
  rewrite subagentGroups_lookup.
  destruct (taskToolUseMap (resolve messages) !! T) as [info|] eqn:Hinfo;
    [|done].
  simpl. rewrite build_group_spec. case_decide as Hnil; [done|].
  intros [= <-]. rewrite member_indices_children. simpl.
  destruct (inv_task_info _ _ _ (resolve_inv messages) _ _ Hinfo)
    as (Hlt & Hmsg & Hin).
  done.
Qed.

(** ** Marking and the third pass *)

Lemma processedIndices_spec (messages : list ClaudeStreamMessage) (j : nat) :
  j ∈ processedIndices messages ↔
    ∃ P, parent_at messages j = Some P
         ∧ is_Some (subagentGroups messages !! P).
Proof.
  unfold processedIndices, processedIndicesOf.
  set (groups := subagentGroups messages).
  pose (Inv := λ (i : nat) (s : gset nat),
          ∀ k, k ∈ s ↔ k < i ∧ ∃ P, parent_at messages k = Some P
                                     ∧ is_Some (groups !! P)).
  assert (Inv (length messages) (forEach (mark_step groups) messages ∅)) as H.
  { apply (forEach_invariant (mark_step groups) Inv).
    - intros k. split; [set_solver|]. intros [? _]. lia.
    - intros i x s Hx Hs k. unfold Inv in Hs. unfold mark_step.
      assert (parent_at messages i = getParentToolUseId x) as Hpar.
      { unfold parent_at. by rewrite Hx. }
      destruct (getParentToolUseId x) as [P|] eqn:HP.
      + case_bool_decide as Hsome.
        * rewrite elem_of_union, elem_of_singleton, Hs. split.
          -- intros [->|[? ?]]; [|split; [lia|done]].
             split; [lia|]. by exists P.
          -- intros [Hk Hex]. destruct (decide (k = i)) as [->|]; [by left|].
             right. split; [lia|done].
        * rewrite Hs. split; intros [Hk Hex].
          -- split; [lia|done].
          -- destruct (decide (k = i)) as [->|]; [|split; [lia|done]].
             exfalso. destruct Hex as (P' & HP' & Hs').
             assert (P' = P) as -> by congruence. done.
      + rewrite Hs. split; intros [Hk Hex].
        * split; [lia|done].
        * destruct (decide (k = i)) as [->|]; [|split; [lia|done]].
          exfalso. destruct Hex as (P' & HP' & _). congruence. }
  rewrite (H j). split; [by intros [_ ?]|].
  intros (P & HP & Hs). split; [|by exists P].
  unfold parent_at in HP. apply lookup_lt_is_Some.
  destruct (messages !! j); [done|]. done.
Qed.

Lemma normal_entries_app (l1 l2 : list IntermediateGroup) :
  normal_entries (l1 ++ l2) = normal_entries l1 ++ normal_entries l2.
Proof. apply omap_app. Qed.

Lemma igroups_of_app (l1 l2 : list IntermediateGroup) :
  igroups_of (l1 ++ l2) = igroups_of l1 ++ igroups_of l2.
Proof. apply omap_app. Qed.

Lemma igroups_of_elem (l : list IntermediateGroup) (g : SubagentGroup) :
  g ∈ igroups_of l ↔ ISubagent g ∈ l.
Proof.
  unfold igroups_of. rewrite list_elem_of_omap. split.
  - intros ([m i|g'] & Hin & Heq); [done|]. by injection Heq as ->.
  - intros Hin. by exists (ISubagent g).
Qed.

Lemma emit_group_inv (messages : list ClaudeStreamMessage) (b : Builder)
    (T : string) :
  groups_inv messages b →
  groups_inv messages (emit_group (subagentGroups messages) b T)
  ∧ normal_entries (intermediateGroups (emit_group (subagentGroups messages) b T))
    = normal_entries (intermediateGroups b).
Proof.
  intros [Hst Hnd]. unfold emit_group.
  destruct (subagentGroups messages !! T) as [g|] eqn:Hg; [|done].
  case_bool_decide as Hadded; [done|].
  destruct (subagentGroups_Some _ _ _ Hg) as (Hid & _).
  unfold groups_inv. cbn [intermediateGroups addedTaskGroups]. split; [split|].
  - intros g' [Hin|Hin]%elem_of_app.
    + destruct (Hst _ Hin) as [? ?]. split; [done|].
      apply elem_of_union. by right.
    + apply list_elem_of_singleton in Hin. injection Hin as ->.
      rewrite Hid. split; [done|].
      apply elem_of_union. left. by apply elem_of_singleton.
  - rewrite igroups_of_app, fmap_app. simpl.
    apply NoDup_app. split; [done|]. split; [|apply NoDup_singleton].
    intros T' Hin Hin'. apply list_elem_of_singleton in Hin'. subst T'.
    apply list_elem_of_fmap in Hin as (g' & Hid' & Hin).
    apply igroups_of_elem in Hin. destruct (Hst _ Hin) as [_ Hadd].
    apply Hadded. congruence.
  - rewrite normal_entries_app. simpl. by rewrite app_nil_r.
Qed.

Lemma foldl_emit_group_inv (messages : list ClaudeStreamMessage)
    (ids : list string) :
  ∀ b, groups_inv messages b →
       groups_inv messages (foldl (emit_group (subagentGroups messages)) b ids)
       ∧ normal_entries
           (intermediateGroups
              (foldl (emit_group (subagentGroups messages)) b ids))
         = normal_entries (intermediateGroups b).
Proof.
  induction ids as [|T ids IH]; intros b Hb; [done|]. simpl.
  destruct (emit_group_inv messages b T Hb) as [Hb' Hn'].
  destruct (IH _ Hb') as [Hb'' Hn'']. split; [done|congruence].
Qed.

Lemma push_normal_groups_inv (messages : list ClaudeStreamMessage)
    (b : Builder) (m : ClaudeStreamMessage) (i : nat) :
  groups_inv messages b → groups_inv messages (push_normal b m i).
Proof.
  intros [Hst Hnd]. unfold push_normal, groups_inv.
  split; cbn [intermediateGroups addedTaskGroups].
  - intros g [Hin|Hin]%elem_of_app; [by apply Hst|].
    by apply list_elem_of_singleton in Hin.
  - rewrite igroups_of_app. simpl. by rewrite app_nil_r.
Qed.

Lemma existsb_has_group (groups : gmap string SubagentGroup)
    (ids : list string) :
  existsb (λ T, bool_decide (is_Some (groups !! T))) ids = false
  ↔ Forall (λ T, groups !! T = None) ids.
Proof.
  induction ids as [|T ids IH]; simpl; [by split; [constructor|]|].
  rewrite orb_false_iff, IH, Forall_cons, bool_decide_eq_false.
  by rewrite <-eq_None_not_Some.
Qed.

Lemma build_step_inv (messages : list ClaudeStreamMessage) (j : nat)
    (m : ClaudeStreamMessage) (b : Builder) :
  messages !! j = Some m →
  builder_inv messages j b →
  builder_inv messages (S j)
    (build_step (subagentGroups messages) (processedIndices messages)
                (indexToTaskIds (resolve messages)) b m j).
Proof.
  intros Hm [Hn Hst Hnd].
  assert (groups_inv messages b) as Hg by done.
  pose proof (task_ids_at_lookup _ _ _ Hm) as Hids.
  assert (j < length messages) as Hj by (by eapply lookup_lt_Some).
  assert (∀ b', groups_inv messages b' →
            normal_entries (intermediateGroups b')
            = normal_entries (intermediateGroups b)
              ++ (if decide (shows_normal messages j) then [(m, j)] else []) →
            builder_inv messages (S j) b') as Hclose.
  { intros b' [Hst' Hnd'] Hn'. split; [|done..].
    rewrite Hn', Hn, seq_S, filter_app, omap_app. simpl. f_equal.
    rewrite filter_cons, filter_nil.
    destruct (decide (shows_normal messages j)); [|done].
    simpl. by rewrite Hm. }
  unfold build_step. case_bool_decide as Hproc.
  { apply Hclose; [done|]. rewrite decide_False; [by rewrite app_nil_r|].
    by intros [? _]. }
  rewrite (inv_index_ids _ _ _ (resolve_inv messages)).
  assert (∀ b0, groups_inv messages b0 →
            normal_entries (intermediateGroups b0)
            = normal_entries (intermediateGroups b) →
            Forall (λ T, subagentGroups messages !! T = None)
                   (task_ids_at messages j) →
            builder_inv messages (S j) (push_normal b0 m j)) as Hpush.
  { intros b0 Hg0 Hn0 Hall. apply Hclose.
    - by apply push_normal_groups_inv.
    - unfold push_normal. simpl. rewrite normal_entries_app, Hn0. simpl.
      by rewrite decide_True. }
  destruct (decide (j < length messages ∧ task_ids_at messages j ≠ []))
    as [[_ Hne]|Hcase].
  - apply nonempty_length in Hne. rewrite Hne.
    destruct (foldl_emit_group_inv messages (task_ids_at messages j) b Hg)
      as [Hg' Hn'].
    destruct (existsb _ (task_ids_at messages j)) eqn:Hany; simpl.
    + apply Hclose; [done|]. rewrite Hn'.
      rewrite decide_False; [by rewrite app_nil_r|].
      intros [_ Hall]. apply existsb_has_group in Hall. congruence.
    + apply existsb_has_group in Hany. by apply Hpush.
  - apply Hpush; [done..|].
    destruct (decide (task_ids_at messages j = [])) as [->|Hne];
      [constructor|].
    exfalso. apply Hcase. done.
Qed.

Lemma intermediateOf_inv (messages : list ClaudeStreamMessage) :
  ∃ b, intermediateOf messages = intermediateGroups b
       ∧ builder_inv messages (length messages) b.
Proof.
  eexists. split; [reflexivity|].
  apply (forEach_invariant _ (builder_inv messages)).
  - split; simpl; [done| |constructor].
    intros g Hin. by apply not_elem_of_nil in Hin.
  - intros j x s Hx Hs. by apply build_step_inv.
Qed.

(** ** What the fourth pass keeps *)

Lemma groups_of_app (l1 l2 : list MessageGroup) :
  groups_of (l1 ++ l2) = groups_of l1 ++ groups_of l2.
Proof. apply omap_app. Qed.

Lemma standalone_app (l1 l2 : list MessageGroup) :
  standalone (l1 ++ l2) = standalone l1 ++ standalone l2.
Proof. apply bind_app. Qed.

Lemma flush_projections (st : AggState) :
  groups_of (flush st) = groups_of (finalGroups st)
  ∧ standalone (flush st) = standalone (finalGroups st) ++ pending st.
Proof.
  unfold flush, pending. destruct (currentAggregation st) as [a|]; simpl.
  - rewrite groups_of_app, standalone_app. simpl.
    by rewrite !app_nil_r.
  - by rewrite app_nil_r.
Qed.

Lemma foldl_aggregate_projections (l : list IntermediateGroup) :
  ∀ st,
    groups_of (flush (foldl aggregate_step st l))
    = groups_of (finalGroups st) ++ igroups_of l
    ∧ standalone (flush (foldl aggregate_step st l))
      = standalone (finalGroups st) ++ pending st ++ (normal_entries l).*1.
Proof.
  induction l as [|g l IH]; intros st.
  - simpl. rewrite !app_nil_r. apply flush_projections.
  - cbn [foldl]. destruct (IH (aggregate_step st g)) as [-> ->].
    destruct (flush_projections st) as [Hfg Hfs].
    destruct g as [m i|grp]; simpl.
    + destruct (isTechnicalMessage m); simpl.
      * split; [done|]. unfold pending. simpl.
        destruct (currentAggregation st) as [a|]; simpl;
          by rewrite <-?app_assoc.
      * rewrite groups_of_app, standalone_app, Hfg, Hfs. simpl.
        unfold pending at 2. simpl. by rewrite !app_nil_r, <-!app_assoc.
    + rewrite groups_of_app, standalone_app, Hfg, Hfs. simpl.
      unfold pending at 2. simpl. by rewrite !app_nil_r, <-!app_assoc.
Qed.

(** The fourth pass keeps the subagent groups, and the messages it shows
    outside them are the normal entries' messages, in the same order. *)
Lemma aggregate_projections (l : list IntermediateGroup) :
  groups_of (aggregate l) = igroups_of l
  ∧ standalone (aggregate l) = (normal_entries l).*1.
Proof.
  unfold aggregate.
  by destruct (foldl_aggregate_projections l (mkAggState [] None)) as [-> ->].
Qed.

Lemma groups_of_groupMessages (messages : list ClaudeStreamMessage)
    (g : SubagentGroup) :
  g ∈ groups_of (groupMessages messages) →
  subagentGroups messages !! group_id g = Some g.
Proof.
  unfold groupMessages. rewrite (proj1 (aggregate_projections _)).
  destruct (intermediateOf_inv messages) as (b & -> & Hb).
  intros Hin%igroups_of_elem.
  by destruct (inv_groups_stored _ _ _ Hb _ Hin).
Qed.

Lemma member_indices_bounds (messages : list ClaudeStreamMessage)
    (g : SubagentGroup) (i : nat) :
  i ∈ member_indices messages g →
  startIndex g < i ∧ i < length messages
  ∧ parent_at messages i = Some (group_id g).
Proof.
  rewrite member_indices_children.
  apply children_after_bounds.
Qed.

Lemma members_Forall2 (messages : list ClaudeStreamMessage)
    (g : SubagentGroup) :
  subagentMessages g = omap (messages !!.) (member_indices messages g) →
  Forall2 (λ i m, messages !! i = Some m)
          (member_indices messages g) (subagentMessages g).
Proof.
  intros ->. apply omap_lookup_Forall2, Forall_forall.
  intros i Hi. by destruct (member_indices_bounds _ _ _ Hi) as (_ & ? & _).
Qed.

(** ** Properties of the subagent groups *)

(** C9. In every subagent group of the output the subagent messages are the
    messages at the group's member indices, which ascend strictly; the
    group starts at the index of its task message; it has at least one
    member and ends at the largest member index. No two groups of the
    output share an id, and no index is a member of two of them. *)
Theorem subagent_group_invariants (messages : list ClaudeStreamMessage) :
  let gs := groups_of (groupMessages messages) in
  Forall (λ g,
            StronglySorted lt (member_indices messages g)
            ∧ Forall2 (λ i m, messages !! i = Some m)
                      (member_indices messages g) (subagentMessages g)
            ∧ messages !! startIndex g = Some (taskMessage g)
            ∧ member_indices messages g ≠ []
            ∧ endIndex g = max_list (member_indices messages g)) gs
  ∧ NoDup (group_id <$> gs)
  ∧ ∀ g1 g2 i, g1 ∈ gs → g2 ∈ gs →
               i ∈ member_indices messages g1 →
               i ∈ member_indices messages g2 → g1 = g2.
Proof.
  simpl. split; [|split].
  - apply Forall_forall. intros g Hg.
    apply groups_of_groupMessages, subagentGroups_Some in Hg
      as (_ & _ & Htask & _ & Hne & Hsub & Hend).
    split; [apply member_indices_sorted|].
    split; [by apply members_Forall2|done].
  - unfold groupMessages. rewrite (proj1 (aggregate_projections _)).
    destruct (intermediateOf_inv messages) as (b & -> & Hb).
    apply (inv_groups_nodup _ _ _ Hb).
  - intros g1 g2 i Hg1 Hg2 Hi1 Hi2.
    apply groups_of_groupMessages in Hg1, Hg2.
    destruct (member_indices_bounds _ _ _ Hi1) as (_ & _ & Hp1).
    destruct (member_indices_bounds _ _ _ Hi2) as (_ & _ & Hp2).
    assert (group_id g1 = group_id g2) as Heq by congruence.
    rewrite Heq in Hg1. congruence.
Qed.

(** ** The messages outside the groups *)

Lemma indexed_lookup_Forall2 (messages : list ClaudeStreamMessage)
    (idxs : list nat) :
  Forall (λ i, i < length messages) idxs →
  Forall2 (λ i m, messages !! i = Some m) idxs
          (omap (λ j, (λ m, (m, j)) <$> messages !! j) idxs).*1.
Proof.
  induction 1 as [|i idxs Hi _ IH]; simpl; [constructor|].
  destruct (lookup_lt_is_Some_2 messages i Hi) as [m Hm].
  rewrite Hm. simpl. by constructor.
Qed.

Lemma standalone_groupMessages (messages : list ClaudeStreamMessage) :
  standalone (groupMessages messages)
  = (omap (λ j, (λ m, (m, j)) <$> messages !! j)
          (standalone_indices messages)).*1.
Proof.
  unfold groupMessages. rewrite (proj2 (aggregate_projections _)).
  destruct (intermediateOf_inv messages) as (b & -> & Hb).
  by rewrite (inv_normals _ _ _ Hb).
Qed.

(** ** Task invocations without subagent messages *)

Lemma normal_entries_elem (l : list IntermediateGroup)
    (m : ClaudeStreamMessage) (i : nat) :
  (m, i) ∈ normal_entries l ↔ INormal m i ∈ l.
Proof.
  unfold normal_entries. rewrite list_elem_of_omap. split.
  - intros ([m' i'|g] & Hin & Heq); [|done]. by injection Heq as -> ->.
  - intros Hin. by exists (INormal m i).
Qed.

Lemma aggregate_keeps_normal (l : list IntermediateGroup)
    (m : ClaudeStreamMessage) (i : nat) :
  INormal m i ∈ l → isTechnicalMessage m = false → Normal m i ∈ aggregate l.
Proof.
  intros (l1 & l2 & ->)%list_elem_of_split Hnt.
  unfold aggregate. rewrite foldl_app.
  rewrite (aggregate_boundary_cons _ (INormal m i)) by done.
  apply elem_of_app. right. by left.
Qed.

Lemma open_run_is_flushed (l : list IntermediateGroup) :
  ∀ st a m,
    currentAggregation st = Some a → m ∈ agg_messages a →
    ∃ ms idx, Aggregated ms idx ∈ flush (foldl aggregate_step st l) ∧ m ∈ ms.
Proof.
  induction l as [|g l IH]; intros st a m Hcur Hm.
  - exists (agg_messages a), (agg_startIndex a). split; [|done].
    unfold flush. simpl. rewrite Hcur. apply elem_of_app. right. by left.
  - assert (run_boundary g
            ∨ ∃ m' i', g = INormal m' i' ∧ isTechnicalMessage m' = true)
      as [Hb|(m' & i' & -> & Ht)].
    { destruct g as [m' i'|grp]; [|by left]. simpl.
      destruct (isTechnicalMessage m') eqn:Ht; [right; eauto|by left]. }
    + rewrite (aggregate_boundary_cons _ g) by done.
      exists (agg_messages a), (agg_startIndex a). split; [|done].
      apply elem_of_app. left.
      unfold flush. rewrite Hcur. apply elem_of_app. right. by left.
    + cbn [foldl aggregate_step]. rewrite Ht, Hcur.
      eapply IH; [done|]. simpl. apply elem_of_app. by left.
Qed.

Lemma aggregate_wraps_technical (l : list IntermediateGroup)
    (m : ClaudeStreamMessage) (i : nat) :
  INormal m i ∈ l → isTechnicalMessage m = true →
  ∃ ms idx, Aggregated ms idx ∈ aggregate l ∧ m ∈ ms.
Proof.
  intros (l1 & l2 & ->)%list_elem_of_split Ht.
  unfold aggregate. rewrite foldl_app. cbn [foldl aggregate_step]. rewrite Ht.
  eapply open_run_is_flushed; [done|]. simpl.
  apply elem_of_app. right. by left.
Qed.

(** An index that the third pass shows as a normal entry reaches the
    output: as that normal entry when its message is not technical, inside
    an aggregated run when it is. *)
Lemma shown_normal_in_output (messages : list ClaudeStreamMessage)
    (i : nat) (m : ClaudeStreamMessage) :
  messages !! i = Some m →
  shows_normal messages i →
  INormal m i ∈ intermediateOf messages
  ∧ if isTechnicalMessage m
    then ∃ ms idx, Aggregated ms idx ∈ groupMessages messages ∧ m ∈ ms
    else Normal m i ∈ groupMessages messages.
Proof.
  intros Hm Hshow.
  assert (INormal m i ∈ intermediateOf messages) as Hin.
  { destruct (intermediateOf_inv messages) as (b & -> & Hb).
    apply normal_entries_elem. rewrite (inv_normals _ _ _ Hb).
    apply list_elem_of_omap. exists i. split; [|by rewrite Hm].
    apply list_elem_of_filter. split; [done|].
    apply elem_of_seq. apply lookup_lt_Some in Hm. lia. }
  split; [done|].
  unfold groupMessages. destruct (isTechnicalMessage m) eqn:Ht.
  - by eapply aggregate_wraps_technical.
  - by apply aggregate_keeps_normal.
Qed.






(** ** Messages that precede their task message *)

(** C1 at the input that separates code and claim: the message at index 0
    names task ["T"] as its parent and precedes the task message; the
    output is the single group of the task, which holds the message at
    index 2 only, so index 0 is nowhere in the output. *)
Theorem early_child_is_dropped :
  ∃ m0 m1 m2,
    early_child_transcript = [m0; m1; m2]
    ∧ getParentToolUseId m0 = Some "T"
    ∧ m0 ≠ m1 ∧ m0 ≠ m2
    ∧ groupMessages early_child_transcript
      = [Subagent {| group_id := "T";
                     taskMessage := m1;
                     taskToolUseId := "T";
                     subagentMessages := [m2];
                     startIndex := 1;
                     endIndex := 2;
                     subagentType := Some "explorer" |}].
Proof.
  eexists _, _, _. split; [reflexivity|].
  split; [done|]. split; [done|]. split; [done|]. by vm_compute.
Qed.

(** ** Which groups the third pass emits *)





(** ** Dangling parent ids *)

(** A message that carries no task and whose parent id is carried as a task
    id by no message is never consumed: the third pass shows it as a normal
    entry, which the output holds as it is when the message is not
    technical and inside an aggregated run when it is. *)
Theorem dangling_parent_shown (messages : list ClaudeStreamMessage)
    (i : nat) (m : ClaudeStreamMessage) (P : string) :
  messages !! i = Some m →
  getParentToolUseId m = Some P →
  (∀ k, P ∉ task_ids_at messages k) →
  extractTaskToolUseIds m = [] →
  INormal m i ∈ intermediateOf messages
  ∧ if isTechnicalMessage m
    then ∃ ms idx, Aggregated ms idx ∈ groupMessages messages ∧ m ∈ ms
    else Normal m i ∈ groupMessages messages.
Proof.
  intros Hm HP Hno Hids. apply shown_normal_in_output; [done|]. split.
  - intros (P' & HP' & [g Hg])%processedIndices_spec.
    unfold parent_at in HP'. rewrite Hm in HP'. simpl in HP'.
    assert (P' = P) as -> by congruence.
    destruct (subagentGroups_Some _ _ _ Hg) as (_ & _ & _ & HT & _).
    by eapply Hno.
  - rewrite (task_ids_at_lookup _ _ _ Hm), Hids. constructor.
Qed.

(** The hypotheses hold of the orphan of the dangling transcript. *)
Lemma dangling_parent_shown_witness :
  INormal (user_msg 41 (Some "gone") "orphan") 1
    ∈ intermediateOf dangling_transcript
  ∧ Normal (user_msg 41 (Some "gone") "orphan") 1
      ∈ groupMessages dangling_transcript.
Proof.
  refine (dangling_parent_shown dangling_transcript 1
            (user_msg 41 (Some "gone") "orphan") "gone" eq_refl eq_refl _ eq_refl).
  intros [|[|k]]; vm_compute; apply not_elem_of_nil.
Defined.

(** ** A task id carried by several messages *)

Lemma resolve_step_latest (messages : list ClaudeStreamMessage) (j : nat)
    (m : ClaudeStreamMessage) (r : Resolver) :
  messages !! j = Some m →
  (∀ T info, taskToolUseMap r !! T = Some info →
             ∀ k, k < j → T ∈ task_ids_at messages k → k ≤ info_index info) →
  ∀ T info, taskToolUseMap (resolve_step r m j) !! T = Some info →
            ∀ k, k < S j → T ∈ task_ids_at messages k → k ≤ info_index info.
Proof.
  intros Hm Hr T info. unfold resolve_step.
  pose proof (task_ids_at_lookup _ _ _ Hm) as Hids.
  destruct (0 <? length (extractTaskToolUseIds m)) eqn:Hlen.
  - rewrite foldl_record_task_lookup. cbn [taskToolUseMap].
    case_decide as Hin.
    + intros [= <-] k Hk _. simpl. lia.
    + intros Hinfo k Hk HT.
      destruct (decide (k = j)) as [->|]; [by rewrite Hids in HT|].
      eapply Hr; [done| |done]. lia.
  - intros Hinfo k Hk HT.
    destruct (decide (k = j)) as [->|].
    + rewrite Hids in HT. destruct (extractTaskToolUseIds m); [|done].
      by apply not_elem_of_nil in HT.
    + eapply Hr; [done| |done]. lia.
Qed.

Lemma resolve_latest (messages : list ClaudeStreamMessage) (T : string)
    (info : TaskInfo) (k : nat) :
  taskToolUseMap (resolve messages) !! T = Some info →
  T ∈ task_ids_at messages k → k ≤ info_index info.
Proof.
  intros Hinfo HT.
  assert (k < length messages) as Hk.
  { unfold task_ids_at in HT. apply lookup_lt_is_Some.
    destruct (messages !! k); [done|]. by apply not_elem_of_nil in HT. }
  pose (Inv := λ (i : nat) (r : Resolver),
          ∀ T info, taskToolUseMap r !! T = Some info →
                    ∀ k, k < i → T ∈ task_ids_at messages k →
                         k ≤ info_index info).
  assert (Inv (length messages) (resolve messages)) as H.
  { apply (forEach_invariant resolve_step Inv).
    - intros T' info' Hl. unfold empty_resolver in Hl. simpl in Hl.
      by rewrite lookup_empty in Hl.
    - intros j x s Hx Hs. exact (resolve_step_latest messages j x s Hx Hs). }
  by eapply H.
Qed.

(** When several messages carry the id of a group of the output, the group
    belongs to the last of them: none of them comes after the group's start
    index. *)
Theorem last_task_message_owns_group (messages : list ClaudeStreamMessage) :
  Forall (λ g, ∀ k, group_id g ∈ task_ids_at messages k → k ≤ startIndex g)
         (groups_of (groupMessages messages)).
Proof.
  apply Forall_forall. intros g Hg k HT.
  apply groups_of_groupMessages in Hg.
  rewrite subagentGroups_lookup in Hg.
  destruct (taskToolUseMap (resolve messages) !! group_id g) as [info|]
    eqn:Hinfo; [|done].
  simpl in Hg. rewrite build_group_spec in Hg.
  case_decide; [done|]. injection Hg as <-. simpl in *.
  by eapply resolve_latest.
Qed.

(** ** Properties of the extractors *)

Lemma truthy_Some (s : string) : Js.truthy (Some s) = true ↔ s ≠ "".
Proof.
  unfold Js.truthy. rewrite negb_true_iff. apply string_eqb_false.
Qed.

Lemma is_task_item_true (item : ContentItem) :
  is_task_item item = true ↔
    item_type item = "tool_use"
    ∧ Js.toLowerCase <$> item_name item = Some "task".
Proof.
  unfold is_task_item.
  by rewrite andb_true_iff, string_eqb_true, bool_decide_eq_true.
Qed.

Lemma existsb_task_item (items : list ContentItem) :
  existsb is_task_item items = true ↔
    ∃ item, item ∈ items ∧ is_task_item item = true.
Proof.
  rewrite existsb_exists. split; intros (item & Hin & Ht); exists item;
    (split; [by apply list_elem_of_In|done]).
Qed.

(** X6. [hasTaskToolCall] holds exactly of the assistant messages whose
    content is an item sequence with a [tool_use] item named "task", in any
    letter case. *)
Theorem hasTaskToolCall_spec (m : ClaudeStreamMessage) :
  hasTaskToolCall m = true ↔
    type m = "assistant" ∧ ∃ item, task_item_of m item.
Proof.
  unfold hasTaskToolCall, task_item_of.
  destruct (String.eqb_spec (type m) "assistant") as [Has|Has]; simpl.
  2: { split; [done|]. by intros [? _]. }
  destruct (as_array (content_of m)) as [items|] eqn:Harr.
  - apply as_array_Some in Harr. rewrite existsb_task_item. split.
    + intros (item & Hin & [Hty Hnm]%is_task_item_true).
      split; [done|]. by exists item, items.
    + intros [_ (item & items' & Hc & Hin & Hty & Hnm)].
      assert (items' = items) as -> by congruence.
      exists item. split; [done|]. by apply is_task_item_true.
  - split; [done|]. intros [_ (item & items & Hc & _)].
    apply as_array_Some in Hc. congruence.
Qed.

Lemma task_item_ids_elem (items : list ContentItem) (T : string) :
  T ∈ task_item_ids items ↔
    T ≠ "" ∧ ∃ item, item ∈ items ∧ is_task_item item = true
                     ∧ item_id item = Some T.
Proof.
  unfold task_item_ids. rewrite list_elem_of_omap. split.
  - intros (item & [Ht Hin]%list_elem_of_filter & Hid).
    destruct (Js.truthy (item_id item)) eqn:Htr; [|done].
    rewrite Hid in Htr. apply truthy_Some in Htr.
    split; [done|]. by exists item.
  - intros [Hne (item & Hin & Ht & Hid)]. exists item. split.
    + by apply list_elem_of_filter.
    + rewrite Hid. by rewrite (proj2 (truthy_Some T) Hne).
Qed.

(** The guard on [hasTaskToolCall] changes nothing: without a Task call the
    filter finds no item. *)
Lemma extractTaskToolUseIds_unfold (m : ClaudeStreamMessage) :
  extractTaskToolUseIds m
  = if String.eqb (type m) "assistant"
    then from_option task_item_ids [] (as_array (content_of m))
    else [].
Proof.
  unfold extractTaskToolUseIds, hasTaskToolCall.
  destruct (String.eqb (type m) "assistant"); simpl; [|done].
  destruct (as_array (content_of m)) as [items|]; simpl; [|done].
  destruct (existsb is_task_item items) eqn:Hex; simpl; [done|].
  destruct (task_item_ids items) as [|T ids] eqn:Hids; [done|].
  assert (T ∈ task_item_ids items) as HT by (rewrite Hids; left).
  apply task_item_ids_elem in HT as [_ (item & Hin & Ht & _)].
  assert (existsb is_task_item items = true) as Hex'.
  { apply existsb_task_item. by exists item. }
  congruence.
Qed.

(** X7. The ids that [extractTaskToolUseIds] returns are exactly the
    non-empty ids of the Task tool calls of an assistant message; a Task
    call without an id, or with the empty id, contributes nothing. *)
Theorem extractTaskToolUseIds_spec (m : ClaudeStreamMessage) (T : string) :
  T ∈ extractTaskToolUseIds m ↔
    type m = "assistant" ∧ T ≠ ""
    ∧ ∃ item, task_item_of m item ∧ item_id item = Some T.
Proof.
  rewrite extractTaskToolUseIds_unfold. unfold task_item_of.
  destruct (String.eqb_spec (type m) "assistant") as [Has|Has].
  2: { split; [by intros ?%not_elem_of_nil|]. by intros [? _]. }
  destruct (as_array (content_of m)) as [items|] eqn:Harr; simpl.
  - apply as_array_Some in Harr. rewrite task_item_ids_elem. split.
    + intros [Hne (item & Hin & [Hty Hnm]%is_task_item_true & Hid)].
      split; [done|]. split; [done|]. exists item. split; [|done].
      by exists items.
    + intros (_ & Hne & item & (items' & Hc & Hin & Hty & Hnm) & Hid).
      assert (items' = items) as -> by congruence.
      split; [done|]. exists item. split; [done|].
      split; [|done]. by apply is_task_item_true.
  - split; [by intros ?%not_elem_of_nil|].
    intros (_ & _ & item & (items & Hc & _) & _).
    apply as_array_Some in Hc. congruence.
Qed.

Lemma foldl_details_is_Some (l : list ContentItem) (T : string) :
  ∀ acc, is_Some (foldl details_step acc l !! T) ↔
           is_Some (acc !! T)
           ∨ (T ≠ "" ∧ ∃ item, item ∈ l ∧ item_id item = Some T).
Proof.
  induction l as [|x l IH]; intros acc; simpl.
  - split; [by left|]. intros [?|[_ (item & Hin & _)]]; [done|].
    by apply not_elem_of_nil in Hin.
  - rewrite IH. unfold details_step.
    split.
    + intros [Hsome|[Hne (item & Hin & Hid)]].
      * destruct (item_id x) as [i|] eqn:Hx; [|by left].
        destruct (Js.truthy (Some i)) eqn:Htr; [|by left].
        destruct (decide (i = T)) as [->|Hne].
        -- right. apply truthy_Some in Htr. split; [done|].
           exists x. split; [left|done].
        -- rewrite lookup_insert_ne in Hsome by done. by left.
      * right. split; [done|]. exists item. split; [by right|done].
    + intros [Hsome|[Hne (item & Hin & Hid)]].
      * left. destruct (item_id x) as [i|]; [|done].
        destruct (Js.truthy (Some i)); [|done].
        destruct (decide (i = T)) as [->|Hne'].
        -- rewrite lookup_insert_eq. by eexists.
        -- by rewrite lookup_insert_ne.
      * apply elem_of_cons in Hin as [->|Hin].
        -- left. rewrite Hid. rewrite (proj2 (truthy_Some T) Hne).
           rewrite lookup_insert_eq. by eexists.
        -- right. split; [done|]. by exists item.
Qed.

Lemma foldl_details_origin (l : list ContentItem) (T : string)
    (v : option string) :
  ∀ acc, foldl details_step acc l !! T = Some v →
         acc !! T = Some v
         ∨ ∃ item, item ∈ l ∧ item_id item = Some T
                   ∧ item_subagent_type item = v.
Proof.
  induction l as [|x l IH]; intros acc; simpl; [by left|].
  intros [Hacc|(item & Hin & Hid & Hv)]%IH.
  - unfold details_step in Hacc.
    destruct (item_id x) as [i|] eqn:Hx; [|by left].
    destruct (Js.truthy (Some i)); [|by left].
    destruct (decide (i = T)) as [->|Hne].
    + rewrite lookup_insert_eq in Hacc. injection Hacc as <-.
      right. exists x. split; [left|done].
    + rewrite lookup_insert_ne in Hacc by done. by left.
  - right. exists item. split; [by right|done].
Qed.

Lemma extractTaskToolDetails_unfold (m : ClaudeStreamMessage) :
  extractTaskToolDetails m
  = if negb (hasTaskToolCall m) then ∅
    else match as_array (content_of m) with
         | None => ∅
         | Some items =>
             foldl details_step ∅
                   (filter (λ item, is_task_item item = true) items)
         end.
Proof. reflexivity. Qed.

Lemma extractTaskToolDetails_facts (m : ClaudeStreamMessage) (T : string) :
  (is_Some (extractTaskToolDetails m !! T) ↔ T ∈ extractTaskToolUseIds m)
  ∧ ∀ v, extractTaskToolDetails m !! T = Some v →
         ∃ item, task_item_of m item ∧ item_id item = Some T
                 ∧ item_subagent_type item = v.
Proof.
  rewrite extractTaskToolDetails_unfold, extractTaskToolUseIds_unfold.
  unfold hasTaskToolCall, task_item_of.
  destruct (String.eqb_spec (type m) "assistant") as [Has|Has]; simpl.
  2: { rewrite lookup_empty. split; [|done].
       split; [by intros [? ?]|by intros ?%not_elem_of_nil]. }
  destruct (as_array (content_of m)) as [items|] eqn:Harr; simpl.
  2: { rewrite lookup_empty. split; [|done].
       split; [by intros [? ?]|by intros ?%not_elem_of_nil]. }
  apply as_array_Some in Harr.
  assert (∀ v, foldl details_step ∅
                 (filter (λ item, is_task_item item = true) items) !! T
               = Some v →
               ∃ item, (∃ items0, content_of m = Some (ContentArray items0)
                                  ∧ item ∈ items0
                                  ∧ item_type item = "tool_use"
                                  ∧ Js.toLowerCase <$> item_name item
                                    = Some "task")
                       ∧ item_id item = Some T
                       ∧ item_subagent_type item = v) as Horigin.
  { intros v [Hemp|(item & [Ht Hin]%list_elem_of_filter & Hid & Hv)]
             %foldl_details_origin.
    { by rewrite lookup_empty in Hemp. }
    apply is_task_item_true in Ht as [Hty Hnm].
    exists item. split; [by exists items|done]. }
  assert (is_Some (foldl details_step ∅
                     (filter (λ item, is_task_item item = true) items) !! T)
          ↔ T ∈ task_item_ids items) as Hkeys.
  { rewrite foldl_details_is_Some, task_item_ids_elem, lookup_empty. split.
    - intros [[? ?]|[Hne (item & [Ht Hin]%list_elem_of_filter & Hid)]];
        [done|].
      split; [done|]. by exists item.
    - intros [Hne (item & Hin & Ht & Hid)]. right. split; [done|].
      exists item. split; [|done]. by apply list_elem_of_filter. }
  destruct (existsb is_task_item items) eqn:Hex; simpl; [done|].
  rewrite lookup_empty. split; [|done].
  split; [by intros [? ?]|]. intros HT. exfalso.
  apply task_item_ids_elem in HT as [_ (item & Hin & Ht & _)].
  assert (existsb is_task_item items = true) as Hex'.
  { apply existsb_task_item. by exists item. }
  congruence.
Qed.

(** X8. The details map has exactly the extracted task ids as its keys,
    and the detail stored under an id is the [subagent_type] of a Task call
    of the message that has this id. *)
Theorem extractTaskToolDetails_keys (m : ClaudeStreamMessage) (T : string) :
  (is_Some (extractTaskToolDetails m !! T) ↔ T ∈ extractTaskToolUseIds m)
  ∧ ∀ v, extractTaskToolDetails m !! T = Some v →
         ∃ item, task_item_of m item ∧ item_id item = Some T
                 ∧ item_subagent_type item = v.
Proof. exact (extractTaskToolDetails_facts m T). Qed.

(** X9. A parent id counts only when it is a non-empty string, and a
    message is a subagent message exactly when it has such a parent id or
    is flagged as a sidechain. *)
Theorem isSubagentMessage_spec (m : ClaudeStreamMessage) :
  (∀ P, getParentToolUseId m = Some P ↔ parent_tool_use_id m = Some P ∧ P ≠ "")
  ∧ (isSubagentMessage m = true ↔
       is_Some (getParentToolUseId m) ∨ isSidechain m = Some true).
Proof.
  unfold getParentToolUseId, isSubagentMessage. split.
  - intros P. destruct (parent_tool_use_id m) as [s|]; simpl.
    + destruct (String.eqb_spec s "") as [->|Hne]; simpl.
      * split; [done|]. by intros [[= <-] ?].
      * split; [by intros [= <-]|by intros [? _]].
    + split; [done|by intros [? _]].
  - rewrite orb_true_iff, bool_decide_eq_true.
    destruct (Js.truthy (parent_tool_use_id m)) eqn:Htr.
    + split; [|by left]. intros _. left.
      destruct (parent_tool_use_id m); [by eexists|done].
    + split; (intros [H|H]; [|by right]); [done|by destruct H].
Qed.

Lemma existsb_text_item (items : list ContentItem) :
  existsb (λ item, String.eqb (item_type item) "text") items = true ↔
    ∃ item, item ∈ items ∧ item_type item = "text".
Proof.
  rewrite existsb_exists. split; intros (item & Hin & Ht); exists item.
  - split; [by apply list_elem_of_In|by apply string_eqb_true].
  - split; [by apply list_elem_of_In|by apply string_eqb_true].
Qed.

(** X10. The role of a message is its type, except that a user message
    that is a subagent message and whose content is an item sequence with a
    text item has the role of an assistant; a user subagent message with a
    plain string content keeps the role of a user. *)
Theorem getSubagentMessageRole_spec (m : ClaudeStreamMessage) :
  (getSubagentMessageRole m = type m ∨ getSubagentMessageRole m = "assistant")
  ∧ (getSubagentMessageRole m ≠ type m ↔
       type m = "user" ∧ isSubagentMessage m = true
       ∧ ∃ items item, content_of m = Some (ContentArray items)
                       ∧ item ∈ items ∧ item_type item = "text").
Proof.
  unfold getSubagentMessageRole.
  destruct (String.eqb_spec (type m) "user") as [Hu|Hu]; simpl.
  2: { split; [by left|]. split; [done|]. by intros [? _]. }
  destruct (isSubagentMessage m); simpl.
  2: { split; [by left|]. split; [done|]. by intros (_ & ? & _). }
  destruct (as_array (content_of m)) as [items|] eqn:Harr.
  - apply as_array_Some in Harr.
    destruct (existsb _ items) eqn:Hex.
    + apply existsb_text_item in Hex as (item & Hin & Ht).
      split; [by right|]. rewrite Hu. split; [|done].
      intros _. split; [done|]. split; [done|]. by exists items, item.
    + split; [by left|]. split; [done|].
      intros (_ & _ & items' & item & Hc & Hin & Ht).
      assert (items' = items) as -> by congruence.
      assert (existsb (λ item, String.eqb (item_type item) "text") items
              = true) as Hex'.
      { apply existsb_text_item. by exists item. }
      congruence.
  - split; [by left|]. split; [done|].
    intros (_ & _ & items & item & Hc & _).
    apply as_array_Some in Hc. congruence.
Qed.

Lemma isSubagentMessage_parent (m : ClaudeStreamMessage) :
  is_Some (getParentToolUseId m) → isSubagentMessage m = true.
Proof.
  unfold getParentToolUseId, isSubagentMessage.
  destruct (Js.truthy (parent_tool_use_id m)); [done|]. by intros [? ?].
Qed.

(** ** Well-formedness of the output *)

Lemma no_adjacent_aggregated_snoc (l : list MessageGroup) (e : MessageGroup) :
  no_adjacent_aggregated (l ++ [e]) ↔
    no_adjacent_aggregated l
    ∧ from_option (λ x, ¬ (is_aggregated x = true ∧ is_aggregated e = true))
                  True (last l).
Proof.
  induction l as [|x l IH]; [simpl; tauto|].
  destruct l as [|y l].
  - simpl. tauto.
  - change ((x :: y :: l) ++ [e]) with (x :: ((y :: l) ++ [e])).
    change (no_adjacent_aggregated (x :: (y :: l) ++ [e]))
      with (¬ (is_aggregated x = true ∧ is_aggregated y = true)
            ∧ no_adjacent_aggregated ((y :: l) ++ [e])).
    change (no_adjacent_aggregated (x :: y :: l))
      with (¬ (is_aggregated x = true ∧ is_aggregated y = true)
            ∧ no_adjacent_aggregated (y :: l)).
    rewrite IH. change (last (x :: y :: l)) with (last (y :: l)). tauto.
Qed.

Lemma entry_from_mono (l l' : list IntermediateGroup) (e : MessageGroup) :
  (∀ x, x ∈ l → x ∈ l') → entry_from l e → entry_from l' e.
Proof.
  intros Hsub. destruct e as [m i|g|ms i]; simpl.
  - intros [? ?]. split; [by apply Hsub|done].
  - apply Hsub.
  - intros [(m0 & rest & -> & Hin) Hall]. split.
    + exists m0, rest. split; [done|by apply Hsub].
    + eapply Forall_impl; [done|]. intros m [Ht [i' Hi']].
      split; [done|]. exists i'. by apply Hsub.
Qed.

Lemma flush_inv (l : list IntermediateGroup) (st : AggState) :
  agg_inv l st →
  Forall (entry_from l) (flush st) ∧ no_adjacent_aggregated (flush st).
Proof.
  intros (Hall & Hadj & Hlast & Hcur). unfold flush.
  destruct (currentAggregation st) as [a|]; simpl in *; [|done]. split.
  - apply Forall_app. split; [done|]. by constructor.
  - apply no_adjacent_aggregated_snoc. split; [done|].
    destruct (last (finalGroups st)) as [x|]; simpl in *; [|done].
    intros [Hx _]. congruence.
Qed.

Lemma aggregate_step_agg_inv (l : list IntermediateGroup) (st : AggState)
    (g : IntermediateGroup) :
  agg_inv l st → agg_inv (l ++ [g]) (aggregate_step st g).
Proof.
  intros Hinv.
  assert (∀ x, x ∈ l → x ∈ l ++ [g]) as Hsub.
  { intros x Hx. apply elem_of_app. by left. }
  assert (g ∈ l ++ [g]) as Hg.
  { apply elem_of_app. right. by left. }
  destruct (flush_inv l st Hinv) as [Hfl Hfadj].
  assert (∀ e, is_aggregated e = false → entry_from (l ++ [g]) e →
               agg_inv (l ++ [g]) (mkAggState (flush st ++ [e]) None))
    as Hboundary.
  { intros e He Hentry. split; [|split; [|split]]; simpl.
    - apply Forall_app. split; [|by constructor].
      eapply Forall_impl; [done|]. intros x. by apply entry_from_mono.
    - apply no_adjacent_aggregated_snoc. split; [done|].
      destruct (last (flush st)); simpl; [|done]. intros [_ ?]. congruence.
    - by rewrite last_snoc.
    - done. }
  destruct g as [m i|grp]; simpl.
  - destruct (isTechnicalMessage m) eqn:Ht.
    + destruct Hinv as (Hall & Hadj & Hlast & Hcur).
      split; [|split; [|split]]; simpl; [|done..|].
      * eapply Forall_impl; [done|]. intros x. by apply entry_from_mono.
      * assert (isTechnicalMessage m = true ∧ ∃ i', INormal m i' ∈ l ++ [INormal m i])
          as Hm by (split; [done|by exists i]).
        destruct (currentAggregation st) as [a|]; simpl in *.
        -- destruct Hcur as [(m0 & rest & Hms & Hin) Hms_all]. split.
           ++ exists m0, (rest ++ [m]). rewrite Hms. split; [done|].
              by apply Hsub.
           ++ apply Forall_app. split; [|by constructor].
              eapply Forall_impl; [done|]. intros m' [Ht' [i' Hi']].
              split; [done|]. exists i'. by apply Hsub.
        -- split; [by exists m, []|]. by constructor.
    + by apply Hboundary.
  - by apply Hboundary.
Qed.

Lemma foldl_aggregate_agg_inv (l : list IntermediateGroup) :
  agg_inv l (foldl aggregate_step (mkAggState [] None) l).
Proof.
  induction l as [|g l IH] using rev_ind.
  - split; [constructor|]. by simpl.
  - rewrite foldl_app. simpl. by apply aggregate_step_agg_inv.
Qed.

(** Every entry of the aggregated sequence comes from the intermediate
    sequence, and no two aggregated runs are adjacent. *)
Lemma aggregate_well_formed (l : list IntermediateGroup) :
  Forall (entry_from l) (aggregate l) ∧ no_adjacent_aggregated (aggregate l).
Proof. apply flush_inv, foldl_aggregate_agg_inv. Qed.

Lemma intermediate_normal_elem (messages : list ClaudeStreamMessage)
    (m : ClaudeStreamMessage) (i : nat) :
  INormal m i ∈ intermediateOf messages →
  messages !! i = Some m ∧ shows_normal messages i.
Proof.
  destruct (intermediateOf_inv messages) as (b & -> & Hb).
  intros Hin%normal_entries_elem. rewrite (inv_normals _ _ _ Hb) in Hin.
  apply list_elem_of_omap in Hin as (j & [Hshow _]%list_elem_of_filter & Hj).
  destruct (messages !! j) as [m'|] eqn:Hm'; [|done].
  simpl in Hj. by injection Hj as -> ->.
Qed.

Lemma intermediate_subagent_elem (messages : list ClaudeStreamMessage)
    (g : SubagentGroup) :
  ISubagent g ∈ intermediateOf messages →
  subagentGroups messages !! group_id g = Some g.
Proof.
  destruct (intermediateOf_inv messages) as (b & -> & Hb).
  intros Hin. by destruct (inv_groups_stored _ _ _ Hb _ Hin).
Qed.

(** X11. In the output of [groupMessages] a normal entry holds the message
    at its index and this message is not technical; an aggregated run is
    never empty, is indexed by its first message, and holds technical
    messages of the input only; a subagent entry holds the group stored
    under its id; and no two aggregated runs are adjacent. *)
Theorem groupMessages_well_formed (messages : list ClaudeStreamMessage) :
  Forall (entry_of_input messages) (groupMessages messages)
  ∧ no_adjacent_aggregated (groupMessages messages).
Proof.
  unfold groupMessages.
  destruct (aggregate_well_formed (intermediateOf messages)) as [Hall Hadj].
  split; [|done]. eapply Forall_impl; [done|].
  intros [m i|g|ms i]; simpl.
  - intros [[Hm _]%intermediate_normal_elem Ht]. done.
  - apply intermediate_subagent_elem.
  - intros [(m0 & rest & -> & [Hm0 _]%intermediate_normal_elem) Hms].
    split; [by exists m0, rest|].
    eapply Forall_impl; [done|].
    intros m [Ht [i' [Hm _]%intermediate_normal_elem]].
    split; [done|]. by eapply list_elem_of_lookup_2.
Qed.

(** ** Every index is shown once in a regular transcript *)






(** ** Order of the output *)

Lemma flatten_app (l1 l2 : list MessageGroup) :
  flatten (l1 ++ l2) = flatten l1 ++ flatten l2.
Proof. apply bind_app. Qed.

Lemma flush_flatten (st : AggState) :
  flatten (flush st) = flatten (finalGroups st) ++ pending st.
Proof.
  unfold flush, pending. destruct (currentAggregation st) as [a|]; simpl.
  - rewrite flatten_app. simpl. by rewrite app_nil_r.
  - by rewrite app_nil_r.
Qed.

Lemma foldl_aggregate_flatten (l : list IntermediateGroup) :
  ∀ st,
    flatten (flush (foldl aggregate_step st l))
    = flatten (finalGroups st) ++ pending st ++ (l ≫= shown_messages).
Proof.
  induction l as [|e l IH]; intros st.
  - simpl. rewrite app_nil_r. apply flush_flatten.
  - cbn [foldl]. rewrite IH. change ((e :: l) ≫= shown_messages)
      with (shown_messages e ++ (l ≫= shown_messages)).
    destruct e as [m i|g]; simpl.
    + destruct (isTechnicalMessage m); simpl.
      * unfold pending. simpl.
        destruct (currentAggregation st) as [a|]; simpl;
          by rewrite <-?app_assoc.
      * rewrite flatten_app, flush_flatten. unfold pending. simpl.
        by rewrite <-!app_assoc.
    + rewrite flatten_app, flush_flatten. unfold pending. simpl.
      by rewrite app_nil_r, <-!app_assoc.
Qed.

(** The fourth pass keeps the order in which the messages are shown. *)
Lemma flatten_aggregate (l : list IntermediateGroup) :
  flatten (aggregate l) = l ≫= shown_messages.
Proof. unfold aggregate. by rewrite foldl_aggregate_flatten. Qed.

Lemma ordered_within_mono (messages : list ClaudeStreamMessage)
    (n b n' b' : nat) (l : list IntermediateGroup) :
  n ≤ n' → b ≤ b' →
  ordered_within messages n b l → ordered_within messages n' b' l.
Proof.
  intros Hn Hb. induction l as [|e l IH]; [done|].
  intros [He Hl]. split; [|by apply IH].
  destruct e as [m j|g].
  - destruct He as [Hj Hall]. split; [lia|done].
  - destruct He as (k & Hk & Hrest). exists k. split; [lia|done].
Qed.

Lemma ordered_within_snoc (messages : list ClaudeStreamMessage)
    (n b n' b' : nat) (l : list IntermediateGroup) (e : IntermediateGroup) :
  n ≤ n' → b ≤ b' →
  ordered_within messages n b l →
  Forall (λ x, n ≤ x) (shown_indices messages e) →
  (∀ k, k < b → stands_after k e) →
  ordered_within messages n' b' [e] →
  ordered_within messages n' b' (l ++ [e]).
Proof.
  intros Hn Hb Hl Hidx Hafter He. induction l as [|e0 l IH]; [done|].
  destruct Hl as [He0 Hl]. split; [|by apply IH].
  destruct e0 as [m j|g].
  - destruct He0 as [Hj Hall]. split; [lia|].
    apply Forall_app. split; [done|]. apply Forall_singleton.
    eapply Forall_impl; [exact Hidx|]. simpl. lia.
  - destruct He0 as (k & Hk & Hstart & Hid & Hall). exists k.
    split; [lia|]. split; [done|]. split; [done|].
    apply Forall_app. split; [done|]. apply Forall_singleton. by apply Hafter.
Qed.

Lemma ordered_within_entries (messages : list ClaudeStreamMessage)
    (n b : nat) (l : list IntermediateGroup) :
  ordered_within messages n b l → ordered_entries messages l.
Proof.
  induction l as [|e l IH]; [done|].
  intros [He Hl]. split; [|by apply IH].
  destruct e as [m j|g].
  - by destruct He as [_ ?].
  - destruct He as (k & _ & Hrest). by exists k.
Qed.

(** The group stored for a task starts at the last message that carries
    the task. *)
Lemma stored_group_latest (messages : list ClaudeStreamMessage) (T : string)
    (g : SubagentGroup) (k : nat) :
  subagentGroups messages !! T = Some g →
  T ∈ task_ids_at messages k → k ≤ startIndex g.
Proof.
  rewrite subagentGroups_lookup. intros Hg HT.
  destruct (taskToolUseMap (resolve messages) !! T) as [info|] eqn:Hinfo;
    [|done].
  simpl in Hg. rewrite build_group_spec in Hg.
  case_decide; [done|]. injection Hg as <-. simpl.
  by eapply resolve_latest.
Qed.

Lemma emit_group_ordered (messages : list ClaudeStreamMessage) (i : nat)
    (b : Builder) (T : string) :
  T ∈ task_ids_at messages i →
  ordered_within messages i (S i) (intermediateGroups b) →
  ordered_within messages i (S i)
    (intermediateGroups (emit_group (subagentGroups messages) b T)).
Proof.
  intros HT Hb. unfold emit_group.
  destruct (subagentGroups messages !! T) as [g|] eqn:Hg; [|done].
  case_bool_decide; [done|]. cbn [intermediateGroups].
  destruct (subagentGroups_Some _ _ _ Hg) as (Hid & _).
  pose proof (stored_group_latest _ _ _ _ Hg HT) as Hstart.
  apply (ordered_within_snoc messages i (S i)); [done..| | |].
  - simpl. constructor; [done|]. apply Forall_forall. intros x Hx.
    destruct (member_indices_bounds _ _ _ Hx) as (? & _). lia.
  - intros k Hk. simpl. lia.
  - split; [|done]. exists i. rewrite Hid.
    split; [lia|]. split; [done|]. split; [done|constructor].
Qed.

Lemma foldl_emit_group_ordered (messages : list ClaudeStreamMessage)
    (i : nat) (ids : list string) :
  Forall (λ T, T ∈ task_ids_at messages i) ids →
  ∀ b, ordered_within messages i (S i) (intermediateGroups b) →
       ordered_within messages i (S i)
         (intermediateGroups
            (foldl (emit_group (subagentGroups messages)) b ids)).
Proof.
  induction 1 as [|T ids HT _ IH]; intros b Hb; [done|].
  simpl. by apply IH, emit_group_ordered.
Qed.

Lemma foldl_emit_group_none (groups : gmap string SubagentGroup)
    (ids : list string) (b : Builder) :
  Forall (λ T, groups !! T = None) ids →
  foldl (emit_group groups) b ids = b.
Proof.
  induction 1 as [|T ids HT _ IH]; [done|].
  simpl. unfold emit_group at 2. by rewrite HT.
Qed.

Lemma push_normal_ordered (messages : list ClaudeStreamMessage) (j : nat)
    (m : ClaudeStreamMessage) (b : Builder) :
  ordered_within messages j j (intermediateGroups b) →
  ordered_within messages (S j) (S j)
    (intermediateGroups (push_normal b m j)).
Proof.
  intros Hb. unfold push_normal. cbn [intermediateGroups].
  apply (ordered_within_snoc messages j j); [lia|lia|done| | |].
  - simpl. by constructor.
  - intros k Hk. done.
  - split; [|done]. split; [lia|constructor].
Qed.

Lemma build_step_ordered (messages : list ClaudeStreamMessage) (j : nat)
    (m : ClaudeStreamMessage) (b : Builder) :
  messages !! j = Some m →
  ordered_within messages j j (intermediateGroups b) →
  ordered_within messages (S j) (S j)
    (intermediateGroups
       (build_step (subagentGroups messages) (processedIndices messages)
                   (indexToTaskIds (resolve messages)) b m j)).
Proof.
  intros Hm Hb. unfold build_step.
  case_bool_decide.
  { eapply ordered_within_mono; [| |exact Hb]; lia. }
  rewrite (inv_index_ids _ _ _ (resolve_inv messages)).
  destruct (decide (j < length messages ∧ task_ids_at messages j ≠ []))
    as [[_ Hne]|Hcase]; [|by apply push_normal_ordered].
  apply nonempty_length in Hne. rewrite Hne.
  destruct (existsb _ (task_ids_at messages j)) eqn:Hany; simpl.
  - apply (ordered_within_mono messages j (S j)); [lia|lia|].
    apply foldl_emit_group_ordered.
    + by apply Forall_forall.
    + eapply ordered_within_mono; [| |exact Hb]; lia.
  - apply existsb_has_group in Hany.
    rewrite foldl_emit_group_none by done. by apply push_normal_ordered.
Qed.

(** The third pass pushes its entries in the order of [ordered_entries]. *)
Lemma intermediateOf_ordered (messages : list ClaudeStreamMessage) :
  ordered_entries messages (intermediateOf messages).
Proof.
  apply (ordered_within_entries messages (length messages) (length messages)).
  unfold intermediateOf.
  apply (forEach_invariant _
           (λ i b, ordered_within messages i i (intermediateGroups b))).
  - done.
  - intros j x s Hx Hs. by apply build_step_ordered.
Qed.

(** Every entry of the third pass holds the messages at the indices it
    shows. *)
Lemma intermediateOf_shown (messages : list ClaudeStreamMessage) :
  Forall (λ e, Forall2 (λ i m, messages !! i = Some m)
                       (shown_indices messages e) (shown_messages e))
         (intermediateOf messages).
Proof.
  apply Forall_forall. intros [m i|g] He; simpl.
  - apply intermediate_normal_elem in He as [Hm _].
    by constructor; [|constructor].
  - apply intermediate_subagent_elem, subagentGroups_Some in He
      as (_ & _ & Htask & _ & _ & Hsub & _).
    constructor; [done|]. by apply members_Forall2.
Qed.

(** C5 fails as stated. In the interleaved transcript the child at index 2
    is shown inside the group, and so before the user message at index 1.
    In the transcript that repeats a task id the group stands where the
    first message carrying the id stood and starts with the last one, so
    that the task message of index 2 is shown before the user message at
    index 1. *)
Lemma group_member_shown_before_earlier_message :
  (∃ m0 m1 m2,
     interleaved_transcript = [m0; m1; m2]
     ∧ m1 ≠ m2
     ∧ flatten (groupMessages interleaved_transcript) = [m0; m2; m1])
  ∧ (∃ m0 m1 m2 m3,
       repeated_task_transcript = [m0; m1; m2; m3]
       ∧ m1 ≠ m2
       ∧ flatten (groupMessages repeated_task_transcript) = [m2; m3; m1]).
Proof.
  split.
  - eexists _, _, _. split; [reflexivity|]. split; [done|]. by vm_compute.
  - eexists _, _, _, _. split; [reflexivity|]. split; [done|]. by vm_compute.
Qed.

(** C5, as the code has it. The flattened output shows the messages of the
    entries of the third pass, entry by entry, and every entry holds the
    messages at the indices it shows. A message shown outside the subagent
    groups (a normal payload or a member of an aggregated run) has a smaller
    index than every message shown after it, whether outside or inside a
    group; these messages are the ones at the standalone indices, in
    ascending order. A subagent group shows its task message, which stands
    at the start index, and then its subagent messages, which stand at
    strictly ascending indices after the start index. Every normal entry
    after a group has a larger index, and every group after it starts at
    the same or a larger index, than a message [k] that carries the id of
    the group and is not after the start index; [k] is the task message
    itself when no other message carries the id. Only the subagent messages
    of a group, and the task message of a group whose id is carried by an
    earlier message too, may be shown before messages of smaller indices. *)
Theorem order_outside_and_inside_groups (messages : list ClaudeStreamMessage) :
  let out := groupMessages messages in
  let entries := intermediateOf messages in
  StronglySorted lt (standalone_indices messages)
  ∧ Forall2 (λ i m, messages !! i = Some m)
            (standalone_indices messages) (standalone out)
  ∧ Forall (λ g,
              messages !! startIndex g = Some (taskMessage g)
              ∧ group_id g ∈ task_ids_at messages (startIndex g)
              ∧ Forall (λ i, startIndex g < i) (member_indices messages g)
              ∧ StronglySorted lt (member_indices messages g)
              ∧ Forall2 (λ i m, messages !! i = Some m)
                        (member_indices messages g) (subagentMessages g))
           (groups_of out)
  ∧ flatten out = entries ≫= shown_messages
  ∧ groups_of out = igroups_of entries
  ∧ Forall (λ e, Forall2 (λ i m, messages !! i = Some m)
                         (shown_indices messages e) (shown_messages e))
           entries
  ∧ ordered_entries messages entries.
Proof.
  simpl. split; [|split; [|split; [|split; [|split; [|split]]]]].
  - apply strongly_sorted_filter, seq_strongly_sorted.
  - rewrite standalone_groupMessages. apply indexed_lookup_Forall2.
    apply Forall_forall. intros i [_ [_ Hi]%elem_of_seq]%list_elem_of_filter.
    lia.
  - apply Forall_forall. intros g Hg.
    apply groups_of_groupMessages in Hg.
    destruct (subagentGroups_Some _ _ _ Hg)
      as (Hid & _ & Htask & Hcarry & Hne & Hsub & Hend).
    split; [done|]. split; [done|]. split; [|split].
    + apply Forall_forall. intros i Hi.
      by destruct (member_indices_bounds _ _ _ Hi) as (? & _).
    + apply member_indices_sorted.
    + by apply members_Forall2.
  - apply flatten_aggregate.
  - apply aggregate_projections.
  - apply intermediateOf_shown.
  - apply intermediateOf_ordered.
Qed.

(** ** [shouldHideMessage] against the output of [groupMessages] *)

Lemma subagentGroups_taskToolUseId (messages : list ClaudeStreamMessage)
    (T : string) (g : SubagentGroup) :
  subagentGroups messages !! T = Some g → taskToolUseId g = T.
Proof.
  rewrite subagentGroups_lookup.
  destruct (taskToolUseMap (resolve messages) !! T) as [info|]; [|done].
  simpl. rewrite build_group_spec. case_decide; [done|]. by intros [= <-].
Qed.

Lemma groups_of_elem (out : list MessageGroup) (g : SubagentGroup) :
  g ∈ groups_of out ↔ Subagent g ∈ out.
Proof.
  unfold groups_of. rewrite list_elem_of_omap. split.
  - intros ([m i|g'|ms i] & Hin & Heq); try done. by injection Heq as ->.
  - intros Hin. by exists (Subagent g).
Qed.

(** Only the parent id matters: the sidechain flag alone hides nothing. *)
Lemma shouldHideMessage_true (m : ClaudeStreamMessage)
    (groups : list MessageGroup) :
  shouldHideMessage m groups = true ↔
    ∃ P g, getParentToolUseId m = Some P
           ∧ Subagent g ∈ groups ∧ taskToolUseId g = P.
Proof.
  unfold shouldHideMessage.
  destruct (getParentToolUseId m) as [P|] eqn:HP.
  - assert (isSubagentMessage m = true) as ->.
    { apply isSubagentMessage_parent. by eexists. }
    rewrite existsb_exists. split.
    + intros ([m' i|g|ms i] & Hin & Heq); try done.
      apply string_eqb_true in Heq. exists P, g.
      split; [done|]. split; [by apply list_elem_of_In|done].
    + intros (P' & g & [= <-] & Hin & Hid). exists (Subagent g).
      split; [by apply list_elem_of_In|by apply string_eqb_true].
  - split.
    + by destruct (isSubagentMessage m).
    + by intros (P & g & ? & _).
Qed.

(** X12. Every subagent message of every group of the output is a message
    that [shouldHideMessage] hides against that output. *)
Theorem group_members_are_hidden (messages : list ClaudeStreamMessage) :
  let out := groupMessages messages in
  Forall (λ g, Forall (λ m, shouldHideMessage m out = true)
                      (subagentMessages g))
         (groups_of out).
Proof.
  simpl. apply Forall_forall. intros g Hg. apply Forall_forall. intros m Hm.
  pose proof Hg as Hstored%groups_of_groupMessages.
  destruct (subagentGroups_Some _ _ _ Hstored)
    as (_ & _ & _ & _ & _ & Hsub & _).
  rewrite Hsub in Hm.
  apply list_elem_of_omap in Hm as (i & Hi & Hlook).
  destruct (member_indices_bounds _ _ _ Hi) as (_ & _ & Hp).
  unfold parent_at in Hp. rewrite Hlook in Hp. simpl in Hp.
  apply shouldHideMessage_true. exists (group_id g), g.
  split; [done|]. split; [by apply groups_of_elem|].
  by apply subagentGroups_taskToolUseId in Hstored.
Qed.

Lemma standalone_from_intermediate (l : list IntermediateGroup)
    (m : ClaudeStreamMessage) :
  m ∈ standalone (aggregate l) → ∃ i, INormal m i ∈ l.
Proof.
  rewrite (proj2 (aggregate_projections l)).
  intros ([m' i] & -> & Hin%normal_entries_elem)%list_elem_of_fmap.
  by exists i.
Qed.

(** X13. No message that the output shows outside the groups, as a normal
    payload or inside an aggregated run, is one that [shouldHideMessage]
    hides against that output. *)
Theorem shown_messages_are_not_hidden (messages : list ClaudeStreamMessage) :
  let out := groupMessages messages in
  Forall (λ m, shouldHideMessage m out = false) (standalone out).
Proof.
  simpl. apply Forall_forall. intros m Hm.
  apply standalone_from_intermediate in Hm as (i & Hi).
  apply intermediate_normal_elem in Hi as [Hlook [Hproc _]].
  destruct (shouldHideMessage m (groupMessages messages)) eqn:Hhide; [|done].
  exfalso. apply Hproc.
  apply shouldHideMessage_true in Hhide as (P & g & HP & Hg & Hid).
  apply groups_of_elem, groups_of_groupMessages in Hg.
  rewrite (subagentGroups_taskToolUseId _ _ _ Hg) in Hid.
  apply processedIndices_spec. exists P. split.
  - unfold parent_at. by rewrite Hlook.
  - rewrite <-Hid. by eexists.
Qed.

(** ** Transcripts without task invocations *)

Lemma filter_all {A : Type} (P : A → Prop) `{∀ x, Decision (P x)}
    (l : list A) :
  (∀ x, x ∈ l → P x) → filter P l = l.
Proof.
  induction l as [|x l IH]; intros Hall; [done|].
  rewrite filter_cons_True by (apply Hall; left).
  f_equal. apply IH. intros y Hy. apply Hall. by right.
Qed.

Lemma indexed_from (l : list ClaudeStreamMessage) :
  ∀ rest i, drop i l = rest →
            omap (λ j, (λ m, (m, j)) <$> l !! j) (seq i (length rest))
            = imap (λ k m, (m, i + k)) rest.
Proof.
  induction rest as [|x rest IH]; intros i Hdrop; [done|].
  assert (l !! i = Some x) as Hx.
  { by rewrite <-(Nat.add_0_r i), <-lookup_drop, Hdrop. }
  rewrite (drop_S _ _ _ Hx) in Hdrop. injection Hdrop as Hdrop.
  change (seq i (length (x :: rest))) with (i :: seq (S i) (length rest)).
  cbn [omap list_omap]. rewrite Hx. cbn [fmap option_fmap option_map imap].
  rewrite Nat.add_0_r. f_equal.
  rewrite (IH _ Hdrop). apply imap_ext. intros k m _. simpl. f_equal. lia.
Qed.

Lemma indexed_all (l : list ClaudeStreamMessage) :
  omap (λ j, (λ m, (m, j)) <$> l !! j) (seq 0 (length l))
  = imap (λ k m, (m, k)) l.
Proof. exact (indexed_from l l 0 eq_refl). Qed.

Lemma imap_fst (l : list ClaudeStreamMessage) :
  ∀ s, (imap (λ k m, (m, s + k)) l).*1 = l.
Proof.
  induction l as [|x l IH]; intros s; [done|]. simpl. f_equal.
  rewrite <-(IH (S s)) at 2. f_equal. apply imap_ext. intros k m _.
  simpl. f_equal. lia.
Qed.

Lemma no_task_no_ids (messages : list ClaudeStreamMessage) (j : nat) :
  Forall (λ m, hasTaskToolCall m = false) messages →
  task_ids_at messages j = [].
Proof.
  intros Hall. unfold task_ids_at.
  destruct (messages !! j) as [m|] eqn:Hm; [|done]. simpl.
  rewrite Forall_forall in Hall.
  unfold extractTaskToolUseIds.
  by rewrite (Hall m (list_elem_of_lookup_2 _ _ _ Hm)).
Qed.

Lemma no_task_no_group (messages : list ClaudeStreamMessage) (T : string) :
  Forall (λ m, hasTaskToolCall m = false) messages →
  subagentGroups messages !! T = None.
Proof.
  intros Hall.
  destruct (subagentGroups messages !! T) as [g|] eqn:Hg; [|done].
  destruct (subagentGroups_Some _ _ _ Hg) as (_ & _ & _ & HT & _).
  rewrite (no_task_no_ids _ _ Hall) in HT. by apply not_elem_of_nil in HT.
Qed.

Lemma no_task_intermediate (messages : list ClaudeStreamMessage) :
  Forall (λ m, hasTaskToolCall m = false) messages →
  igroups_of (intermediateOf messages) = []
  ∧ normal_entries (intermediateOf messages) = imap (λ k m, (m, k)) messages.
Proof.
  intros Hall. split.
  - destruct (igroups_of (intermediateOf messages)) as [|g gs] eqn:Hgs;
      [done|].
    assert (g ∈ igroups_of (intermediateOf messages)) as Hg
      by (rewrite Hgs; left).
    apply igroups_of_elem, intermediate_subagent_elem in Hg.
    by rewrite (no_task_no_group _ _ Hall) in Hg.
  - destruct (intermediateOf_inv messages) as (b & -> & Hb).
    rewrite (inv_normals _ _ _ Hb), filter_all; [apply indexed_all|].
    intros j _. split.
    + intros (P & _ & [g Hg])%processedIndices_spec.
      by rewrite (no_task_no_group _ _ Hall) in Hg.
    + rewrite (no_task_no_ids _ _ Hall). constructor.
Qed.

(** X14. When no message of the transcript invokes a task, the output has
    no subagent group and shows every message, in the order of the input,
    as a normal payload or inside an aggregated run, whatever parent ids
    the messages carry. *)
Theorem transcript_without_tasks (messages : list ClaudeStreamMessage) :
  Forall (λ m, hasTaskToolCall m = false) messages →
  groups_of (groupMessages messages) = []
  ∧ standalone (groupMessages messages) = messages.
Proof.
  intros Hall. destruct (no_task_intermediate messages Hall) as [Hg Hn].
  unfold groupMessages.
  destruct (aggregate_projections (intermediateOf messages)) as [-> ->].
  split; [done|]. rewrite Hn. apply (imap_fst messages 0).
Qed.

(** The hypothesis holds of two user messages, one of them with a dangling
    parent id. *)
Lemma transcript_without_tasks_witness :
  groups_of (groupMessages dangling_transcript) = []
  ∧ standalone (groupMessages dangling_transcript) = dangling_transcript.
Proof.
  apply (transcript_without_tasks dangling_transcript).
  by repeat constructor.
Defined.

Lemma intermediate_without_groups (l : list IntermediateGroup) :
  igroups_of l = [] → l = normal_run (normal_entries l).
Proof.
  induction l as [|[m i|g] l IH]; simpl; [done| |done].
  intros Hg. f_equal. by apply IH.
Qed.

Lemma aggregate_plain_run (ps : list (ClaudeStreamMessage * nat)) :
  Forall (λ p, isTechnicalMessage p.1 = false) ps →
  aggregate (normal_run ps) = (λ p, Normal p.1 p.2) <$> ps.
Proof.
  induction 1 as [|[m i] ps Hm _ IH]; [done|].
  simpl in Hm. unfold aggregate. simpl normal_run.
  rewrite (aggregate_boundary_cons _ (INormal m i)) by done.
  simpl. by rewrite IH.
Qed.

(** X15. A transcript in which no message invokes a task and no message is
    technical comes out unchanged: one normal entry per message, in order,
    each under its own index. *)
Theorem plain_transcript_unchanged (messages : list ClaudeStreamMessage) :
  Forall (λ m, hasTaskToolCall m = false ∧ isTechnicalMessage m = false)
         messages →
  groupMessages messages = imap (λ i m, Normal m i) messages.
Proof.
  intros Hall.
  assert (Forall (λ m, hasTaskToolCall m = false) messages) as Hno.
  { eapply Forall_impl; [done|]. by intros m [? _]. }
  destruct (no_task_intermediate messages Hno) as [Hg Hn].
  unfold groupMessages.
  rewrite (intermediate_without_groups _ Hg), Hn.
  rewrite aggregate_plain_run.
  - rewrite fmap_imap. by apply imap_ext.
  - apply Forall_forall. intros [m k] Hin. simpl.
    apply elem_of_lookup_imap in Hin as (k' & m' & Heq & Hlook).
    injection Heq as -> ->.
    rewrite Forall_forall in Hall.
    by destruct (Hall m' (list_elem_of_lookup_2 _ _ _ Hlook)).
Qed.

(** The hypothesis holds of two user messages. *)
Lemma plain_transcript_unchanged_witness :
  groupMessages dangling_transcript
  = imap (λ i m, Normal m i) dangling_transcript.
Proof.
  apply (plain_transcript_unchanged dangling_transcript).
  by repeat constructor.
Defined.

(** ** The output is never longer than the input *)

Lemma flush_length (st : AggState) :
  length (flush st)
  = length (finalGroups st)
    + match currentAggregation st with Some _ => 1 | None => 0 end.
Proof.
  unfold flush. destruct (currentAggregation st); [|lia].
  rewrite length_app. simpl. lia.
Qed.

Lemma foldl_aggregate_length (l : list IntermediateGroup) :
  ∀ st, length (flush (foldl aggregate_step st l))
        ≤ length (flush st) + length l.
Proof.
  induction l as [|g l IH]; intros st; simpl; [lia|].
  etrans; [apply IH|].
  assert (length (flush (aggregate_step st g)) ≤ length (flush st) + 1);
    [|lia].
  destruct g as [m i|grp]; simpl.
  - destruct (isTechnicalMessage m).
    + rewrite !flush_length. simpl. destruct (currentAggregation st); lia.
    + rewrite (flush_length (mkAggState _ _)). simpl.
      rewrite length_app. simpl. lia.
  - rewrite (flush_length (mkAggState _ _)). simpl.
    rewrite length_app. simpl. lia.
Qed.

Lemma aggregate_length (l : list IntermediateGroup) :
  length (aggregate l) ≤ length l.
Proof.
  unfold aggregate.
  pose proof (foldl_aggregate_length l (mkAggState [] None)) as H.
  simpl in H. done.
Qed.

Lemma intermediate_length_split (l : list IntermediateGroup) :
  length l = length (normal_entries l) + length (igroups_of l).
Proof.
  induction l as [|e l IH]; [done|].
  change (e :: l) with ([e] ++ l).
  rewrite normal_entries_app, igroups_of_app, !length_app, IH.
  destruct e; simpl; lia.
Qed.

Lemma indexed_length (messages : list ClaudeStreamMessage) (idxs : list nat) :
  length (omap (λ j, (λ m, (m, j)) <$> messages !! j) idxs) ≤ length idxs.
Proof.
  induction idxs as [|i idxs IH]; [done|].
  cbn [omap list_omap].
  destruct (messages !! i); cbn [fmap option_fmap option_map length]; lia.
Qed.

Lemma filter_disjoint_length {A : Type} (P Q : A → Prop)
    `{∀ x, Decision (P x), ∀ x, Decision (Q x)} (l : list A) :
  (∀ x, P x → Q x → False) →
  length (filter P l) + length (filter Q l) ≤ length l.
Proof.
  intros Hdis. induction l as [|x l IH]; [done|].
  rewrite !filter_cons.
  destruct (decide (P x)), (decide (Q x)); simpl; try lia.
  exfalso. by eapply Hdis.
Qed.

(** The last member of a group is an index that the marking pass has
    consumed, and it tells the groups of the output apart. *)
Lemma endIndex_consumed (messages : list ClaudeStreamMessage)
    (g : SubagentGroup) :
  subagentGroups messages !! group_id g = Some g →
  endIndex g ∈ member_indices messages g
  ∧ endIndex g ∈ filter (λ j, j ∈ processedIndices messages)
                        (seq 0 (length messages)).
Proof.
  intros Hg.
  destruct (subagentGroups_Some _ _ _ Hg) as (_ & _ & _ & _ & Hne & _ & ->).
  pose proof (max_list_elem_of _ Hne) as Hin. split; [done|].
  destruct (member_indices_bounds _ _ _ Hin) as (_ & Hlt & Hp).
  apply list_elem_of_filter. split.
  - apply processedIndices_spec. exists (group_id g). split; [done|].
    by eexists.
  - apply elem_of_seq. lia.
Qed.

Lemma igroups_length (messages : list ClaudeStreamMessage) :
  length (igroups_of (intermediateOf messages))
  ≤ length (filter (λ j, j ∈ processedIndices messages)
                   (seq 0 (length messages))).
Proof.
  destruct (intermediateOf_inv messages) as (b & Heq & Hb).
  rewrite Heq. set (gs := igroups_of (intermediateGroups b)).
  assert (∀ g, g ∈ gs → subagentGroups messages !! group_id g = Some g)
    as Hstored.
  { intros g Hg%igroups_of_elem.
    by destruct (inv_groups_stored _ _ _ Hb _ Hg). }
  rewrite <-(length_fmap endIndex gs).
  apply submseteq_length, NoDup_submseteq.
  - apply NoDup_fmap_2_strong.
    + intros g1 g2 Hg1 Hg2 Hend.
      pose proof (Hstored _ Hg1) as Hs1. pose proof (Hstored _ Hg2) as Hs2.
      destruct (endIndex_consumed _ _ Hs1) as [Hm1 _].
      destruct (endIndex_consumed _ _ Hs2) as [Hm2 _].
      rewrite Hend in Hm1.
      destruct (member_indices_bounds _ _ _ Hm1) as (_ & _ & Hp1).
      destruct (member_indices_bounds _ _ _ Hm2) as (_ & _ & Hp2).
      assert (group_id g1 = group_id g2) as Hid by congruence.
      rewrite Hid in Hs1. congruence.
    + eapply NoDup_fmap_1, (inv_groups_nodup _ _ _ Hb).
  - intros i (g & -> & Hg)%list_elem_of_fmap.
    by destruct (endIndex_consumed _ _ (Hstored _ Hg)).
Qed.

(** X16. [groupMessages] never returns more entries than it is given
    messages. *)
Theorem groupMessages_length (messages : list ClaudeStreamMessage) :
  length (groupMessages messages) ≤ length messages.
Proof.
  unfold groupMessages. etrans; [apply aggregate_length|].
  rewrite intermediate_length_split.
  pose proof (igroups_length messages) as Hg.
  assert (length (normal_entries (intermediateOf messages))
          ≤ length (standalone_indices messages)) as Hn.
  { destruct (intermediateOf_inv messages) as (b & -> & Hb).
    rewrite (inv_normals _ _ _ Hb). apply indexed_length. }
  pose proof (filter_disjoint_length
                (shows_normal messages)
                (λ j, j ∈ processedIndices messages)
                (seq 0 (length messages))) as Hd.
  rewrite length_seq in Hd. unfold standalone_indices in Hn.
  assert (∀ j, shows_normal messages j → j ∈ processedIndices messages → False)
    as Hdis by (by intros j [? _] ?).
  specialize (Hd Hdis). lia.
Qed.

(** ** The subagent type of a group *)

Lemma foldl_record_task_types (msg : ClaudeStreamMessage) (i : nat)
    (d : gmap string (option string)) (ids : list string) (T t : string) :
  ∀ r, taskSubagentTypes (foldl (record_task msg i d) r ids) !! T = Some t →
       taskSubagentTypes r !! T = Some t
       ∨ (d !! T = Some (Some t) ∧ t ≠ "").
Proof.
  induction ids as [|x ids IH]; intros r; cbn [foldl]; [by left|].
  intros [Hr|Hd]%IH; [|by right].
  unfold record_task in Hr. cbn [taskSubagentTypes] in Hr.
  destruct (d !! x) as [[t'|]|] eqn:Hx; try by left.
  destruct (Js.truthy (Some t')) eqn:Htr; [|by left].
  destruct (decide (x = T)) as [->|Hne].
  - rewrite lookup_insert_eq in Hr. injection Hr as ->.
    right. split; [done|]. by apply truthy_Some.
  - rewrite lookup_insert_ne in Hr by done. by left.
Qed.

Lemma resolve_types_origin (messages : list ClaudeStreamMessage)
    (T t : string) :
  taskSubagentTypes (resolve messages) !! T = Some t →
  t ≠ "" ∧ ∃ m item, m ∈ messages ∧ task_item_of m item
                     ∧ item_id item = Some T
                     ∧ item_subagent_type item = Some t.
Proof.
  pose (Inv := λ (i : nat) (r : Resolver),
          ∀ T t, taskSubagentTypes r !! T = Some t →
                 t ≠ "" ∧ ∃ m item, m ∈ messages ∧ task_item_of m item
                                    ∧ item_id item = Some T
                                    ∧ item_subagent_type item = Some t).
  assert (Inv (length messages) (resolve messages)) as H; [|by apply H].
  apply (forEach_invariant resolve_step Inv).
  - intros T' t' Hl. unfold empty_resolver in Hl. simpl in Hl.
    by rewrite lookup_empty in Hl.
  - intros j x s Hx Hs T' t'. unfold resolve_step.
    destruct (0 <? length (extractTaskToolUseIds x)); [|apply Hs].
    intros [Hold|[Hd Hne]]%foldl_record_task_types; [by apply Hs|].
    split; [done|].
    destruct (proj2 (extractTaskToolDetails_facts x T') _ Hd)
      as (item & Hitem & Hid & Hty).
    exists x, item. split; [by eapply list_elem_of_lookup_2|done].
Qed.

(** X17. The subagent type of a group of the output, when it has one, is
    never the empty string and is the [subagent_type] given in the input of
    a Task call of the transcript whose id is the id of the group. *)
Theorem subagentType_origin (messages : list ClaudeStreamMessage) :
  Forall (λ g, ∀ t, subagentType g = Some t →
                    t ≠ ""
                    ∧ ∃ m item, m ∈ messages ∧ task_item_of m item
                                ∧ item_id item = Some (group_id g)
                                ∧ item_subagent_type item = Some t)
         (groups_of (groupMessages messages)).
Proof.
  apply Forall_forall. intros g Hg t Ht.
  apply groups_of_groupMessages in Hg.
  rewrite subagentGroups_lookup in Hg.
  destruct (taskToolUseMap (resolve messages) !! group_id g) as [info|];
    [|done].
  simpl in Hg. rewrite build_group_spec in Hg.
  case_decide; [done|]. injection Hg as Hg.
  apply (f_equal subagentType) in Hg. simpl in Hg. rewrite <-Hg in Ht.
  by apply resolve_types_origin.
Qed.

(** ** Symmetry and shape of the comparators *)

Lemma items_agree_sym (p n : ContentItem) : items_agree p n → items_agree n p.
Proof.
  unfold items_agree. intros (Hty & Htx & Htu & Htr). rewrite <-Hty.
  split; [done|]. split; [|split].
  - intros H. by rewrite Htx.
  - intros H. destruct (Htu H) as [-> ->]. done.
  - intros H. by rewrite Htr.
Qed.

Lemma contents_agree_sym (cp cn : option MessageContent) :
  contents_agree cp cn → contents_agree cn cp.
Proof.
  unfold contents_agree.
  destruct cp as [[sp|ps]|], cn as [[sn|ns]|]; try done.
  intros H. apply Forall2_flip. eapply Forall2_impl; [done|].
  intros p n. apply items_agree_sym.
Qed.

Lemma messages_agree_sym (p n : ClaudeStreamMessage) :
  messages_agree p n → messages_agree n p.
Proof.
  unfold messages_agree. intros (Hty & Hid & Hts & Hc & Hin & Hout).
  split; [done|]. split; [|split; [done|]].
  - intros Hn Hp. symmetry. by apply Hid.
  - split; [by apply contents_agree_sym|done].
Qed.

Lemma bool_eq_iff (a b : bool) : (a = true ↔ b = true) → a = b.
Proof. destruct a, b; intros [H1 H2]; try done; [by rewrite H1|by rewrite H2]. Qed.

Lemma isMessageEqual_sym (a b : option ClaudeStreamMessage) :
  isMessageEqual a b = isMessageEqual b a.
Proof.
  apply bool_eq_iff. rewrite !isMessageEqual_iff.
  destruct a as [p|], b as [n|]; try done.
  split; (intros [?|?]; [by left|right; by apply messages_agree_sym]).
Qed.

Lemma subagent_messages_equal_Forall2 (ps ns : list ClaudeStreamMessage) :
  length ps = length ns →
  subagent_messages_equal ps ns = true
  ↔ Forall2 (λ p n, isMessageEqual (Some p) (Some n) = true) ps ns.
Proof.
  revert ns. induction ps as [|p ps IH]; intros [|n ns] Hlen; try done.
  simpl in Hlen. injection Hlen as Hlen. simpl subagent_messages_equal.
  rewrite Forall2_cons, <-(IH _ Hlen).
  destruct (isMessageEqual (Some p) (Some n)) eqn:Heq.
  - rewrite andb_false_r. tauto.
  - assert (Nat.eqb (ref p) (ref n) = false) as ->.
    { destruct (Nat.eqb (ref p) (ref n)) eqn:Hr; [|done].
      apply Nat.eqb_eq in Hr.
      by rewrite (isMessageEqual_same_ref _ _ Hr) in Heq. }
    simpl. split; [done|]. by intros [? _].
Qed.

Lemma isMessageGroupEqual_agree (a b : MessageGroup) :
  isMessageGroupEqual false (Some a) (Some b) = true ↔ groups_agree a b.
Proof.
  destruct a as [pm pi|pg|pms pi], b as [nm ni|ng|nms ni]; simpl; try done.
  destruct (isMessageEqual (Some (taskMessage pg)) (Some (taskMessage ng)));
    simpl; [|split; [done|by intros [? _]]].
  destruct (Nat.eqb_spec (length (subagentMessages pg))
                         (length (subagentMessages ng))) as [Hlen|Hlen];
    simpl.
  - rewrite (subagent_messages_equal_Forall2 _ _ Hlen). tauto.
  - split; [done|]. intros [_ HF]. by apply Forall2_length in HF.
Qed.

(** X18. Both comparators are symmetric: exchanging the previous and the
    next value never changes the verdict. *)
Theorem comparators_symmetric (same : bool)
    (a b : option ClaudeStreamMessage) (g h : option MessageGroup) :
  isMessageEqual a b = isMessageEqual b a
  ∧ isMessageGroupEqual same g h = isMessageGroupEqual same h g.
Proof.
  split; [apply isMessageEqual_sym|].
  destruct g as [x|], h as [y|]; try done.
  destruct same; [done|].
  apply bool_eq_iff. rewrite !isMessageGroupEqual_agree.
  destruct x as [pm pi|pg|pms pi], y as [nm ni|ng|nms ni]; simpl; try done.
  - by rewrite isMessageEqual_sym.
  - rewrite (isMessageEqual_sym (Some (taskMessage pg))).
    split; intros [Ht HF]; (split; [done|]); apply Forall2_flip;
      (eapply Forall2_impl; [done|]); intros p n; simpl;
      by rewrite isMessageEqual_sym.
Qed.

(** X19. Two distinct group objects compare equal exactly when they are of
    the same variant and: for normal entries, the messages compare equal;
    for subagent entries, the task messages compare equal and the subagent
    messages are equally many and compare equal position by position; for
    aggregated entries, always. Indices, group ids, start and end indices
    and the subagent type are never compared. *)
Theorem isMessageGroupEqual_spec (a b : MessageGroup) :
  isMessageGroupEqual false (Some a) (Some b) = true ↔ groups_agree a b.
Proof. exact (isMessageGroupEqual_agree a b). Qed.

(** ** The memo comparator *)

Lemma strict_eq_refl `{EqDecision A} (a : option A) : Js.strict_eq a a = true.
Proof. by apply strict_eq_true. Qed.

(** X20. Props compared with themselves are always equal, whether a group
    or a message is supplied and whether or not the group object is the
    same: the component is not rendered again for unchanged props. *)
Theorem arePropsEqual_refl (same : bool) (p : StreamMessageV2Props) :
  arePropsEqual same p p = true.
Proof.
  unfold arePropsEqual. rewrite !strict_eq_refl.
  destruct (prop_messageGroup p) as [g|].
  - by rewrite isMessageGroupEqual_refl.
  - destruct (prop_message p) as [m|]; [|done].
    by rewrite isMessageEqual_same_ref.
Qed.

(** X21. When the comparator answers that nothing changed, and a group is
    supplied on either side or a message on both, then the streaming flag,
    the prompt index, the session id, the project id and the
    system-initialisation setting are the same on both sides. *)
Theorem arePropsEqual_sound (same : bool) (p n : StreamMessageV2Props) :
  arePropsEqual same p n = true →
  is_Some (prop_messageGroup p) ∨ is_Some (prop_messageGroup n)
  ∨ (is_Some (prop_message p) ∧ is_Some (prop_message n)) →
  prop_isStreaming p = prop_isStreaming n
  ∧ prop_promptIndex p = prop_promptIndex n
  ∧ prop_sessionId p = prop_sessionId n
  ∧ prop_projectId p = prop_projectId n
  ∧ showSystemInitialization_of p = showSystemInitialization_of n.
Proof.
  unfold arePropsEqual. intros Heq Hcase.
  destruct (bool_decide (is_Some (prop_messageGroup p))
            || bool_decide (is_Some (prop_messageGroup n))) eqn:Hg.
  - repeat (apply andb_true_iff in Heq as [Heq ?]).
    repeat match goal with
           | H : Js.strict_eq _ _ = true |- _ => apply strict_eq_true in H
           end.
    done.
  - apply orb_false_iff in Hg as [Hgp Hgn].
    apply bool_decide_eq_false in Hgp, Hgn.
    destruct Hcase as [?|[?|[Hmp Hmn]]]; [done..|].
    rewrite !bool_decide_eq_true_2 in Heq by done. simpl in Heq.
    repeat (apply andb_true_iff in Heq as [Heq ?]).
    repeat match goal with
           | H : Js.strict_eq _ _ = true |- _ => apply strict_eq_true in H
           end.
    done.
Qed.

(** The hypotheses hold of the props of a message compared with the props
    of a copy of the message. *)
Lemma arePropsEqual_sound_witness :
  prop_isStreaming (message_props untimed)
  = prop_isStreaming (message_props (copy_of 7 untimed))
  ∧ prop_promptIndex (message_props untimed)
    = prop_promptIndex (message_props (copy_of 7 untimed))
  ∧ prop_sessionId (message_props untimed)
    = prop_sessionId (message_props (copy_of 7 untimed))
  ∧ prop_projectId (message_props untimed)
    = prop_projectId (message_props (copy_of 7 untimed))
  ∧ showSystemInitialization_of (message_props untimed)
    = showSystemInitialization_of (message_props (copy_of 7 untimed)).
Proof.
  refine (arePropsEqual_sound false (message_props untimed)
            (message_props (copy_of 7 untimed)) _ _).
  - by vm_compute.
  - right. right. split; by eexists.
Defined.

(** X22. When a group is supplied on either side, the comparator reads
    neither the [message] prop, nor [className], nor [projectPath]:
    changing them on both sides leaves the verdict as it is. *)
Theorem arePropsEqual_grouped_ignores (same : bool)
    (p n : StreamMessageV2Props)
    (msg1 msg2 : option ClaudeStreamMessage)
    (cls1 cls2 path1 path2 : option string) :
  is_Some (prop_messageGroup p) ∨ is_Some (prop_messageGroup n) →
  arePropsEqual same (with_ungrouped_props p msg1 cls1 path1)
                (with_ungrouped_props n msg2 cls2 path2)
  = arePropsEqual same p n.
Proof.
  intros Hg. unfold arePropsEqual, with_ungrouped_props,
    showSystemInitialization_of. simpl.
  assert (bool_decide (is_Some (prop_messageGroup p))
          || bool_decide (is_Some (prop_messageGroup n)) = true) as ->; [|done].
  apply orb_true_iff. rewrite !bool_decide_eq_true. done.
Qed.

(** The hypothesis holds of the props of an aggregated entry. *)
Lemma arePropsEqual_grouped_ignores_witness :
  arePropsEqual false
    (with_ungrouped_props (group_props (Aggregated [untimed] 0))
                          (Some untimed) (Some "a") None)
    (with_ungrouped_props (group_props (Aggregated [timed] 1))
                          (Some timed) (Some "b") (Some "/other"))
  = arePropsEqual false (group_props (Aggregated [untimed] 0))
                  (group_props (Aggregated [timed] 1)).
Proof.
  refine (arePropsEqual_grouped_ignores false
            (group_props (Aggregated [untimed] 0))
            (group_props (Aggregated [timed] 1))
            (Some untimed) (Some timed) (Some "a") (Some "b")
            None (Some "/other") _).
  left. by eexists.
Defined.

(** ** What each pass decides *)

(** X23. The second pass stores a group for a task id exactly when some
    message carries the id and, after the last message that carries it,
    some message names it as its parent. *)
Theorem group_materialised_iff (messages : list ClaudeStreamMessage)
    (T : string) :
  is_Some (subagentGroups messages !! T) ↔
    ∃ k j, T ∈ task_ids_at messages k
           ∧ (∀ k', T ∈ task_ids_at messages k' → k' ≤ k)
           ∧ k < j ∧ parent_at messages j = Some T.
Proof.
  split.
  - intros [g Hg].
    destruct (subagentGroups_Some _ _ _ Hg)
      as (Hid & _ & _ & HT & Hne & _ & _).
    destruct (member_indices messages g) as [|j js] eqn:Hj; [done|].
    assert (j ∈ member_indices messages g) as Hin by (rewrite Hj; left).
    destruct (member_indices_bounds _ _ _ Hin) as (Hlt & _ & Hp).
    exists (startIndex g), j. split; [done|]. split; [|by rewrite <-Hid].
    intros k' Hk'. rewrite subagentGroups_lookup in Hg.
    destruct (taskToolUseMap (resolve messages) !! T) as [info|] eqn:Hinfo;
      [|done].
    simpl in Hg. rewrite build_group_spec in Hg.
    case_decide; [done|]. injection Hg as Hg.
    apply (f_equal startIndex) in Hg. simpl in Hg. rewrite <-Hg.
    by eapply resolve_latest.
  - intros (k & j & HT & Hlast & Hlt & Hp).
    rewrite subagentGroups_lookup.
    assert (is_Some (taskToolUseMap (resolve messages) !! T)) as [info Hinfo].
    { apply (inv_task_dom _ _ _ (resolve_inv messages)). exists k.
      split; [|done]. unfold task_ids_at in HT. apply lookup_lt_is_Some.
      destruct (messages !! k); [done|]. by apply not_elem_of_nil in HT. }
    rewrite Hinfo. simpl. rewrite build_group_spec.
    destruct (inv_task_info _ _ _ (resolve_inv messages) _ _ Hinfo)
      as (_ & _ & HT').
    pose proof (resolve_latest _ _ _ _ Hinfo HT) as Hle.
    pose proof (Hlast _ HT') as Hge.
    assert (j ∈ children_after messages T (info_index info)) as Hin.
    { apply list_elem_of_filter. split; [done|]. apply elem_of_seq.
      assert (j < length messages); [|lia].
      unfold parent_at in Hp. apply lookup_lt_is_Some.
      by destruct (messages !! j). }
    case_decide as Hnil; [|by eexists].
    rewrite Hnil in Hin. by apply not_elem_of_nil in Hin.
Qed.

(** X24. The marking pass consumes an index exactly when the message at
    the index names, as its parent, a task id for which a group is
    stored, wherever the index lies with respect to the task message. *)
Theorem marking_pass_spec (messages : list ClaudeStreamMessage) (j : nat) :
  j ∈ processedIndices messages ↔
    ∃ P, parent_at messages j = Some P
         ∧ is_Some (subagentGroups messages !! P).
Proof. exact (processedIndices_spec messages j). Qed.

(** X25. The third pass emits a normal entry for a message at an index
    exactly when the index has not been consumed and none of the task ids
    of the message has a group; the entry then holds the message of that
    index. *)
Theorem normal_entry_iff (messages : list ClaudeStreamMessage)
    (m : ClaudeStreamMessage) (i : nat) :
  INormal m i ∈ intermediateOf messages ↔
    messages !! i = Some m ∧ shows_normal messages i.
Proof.
  split; [apply intermediate_normal_elem|].
  intros [Hm Hshow]. by destruct (shown_normal_in_output _ _ _ Hm Hshow).
Qed.
